(** * A shallow embedding of the permission-gated hierarchical store

    The development follows [src/store.ts] (the navigator with colon
    paths) and the flat variant found next to it.  JavaScript objects are
    represented by association lists in property order, the prototype chain
    of a store instance by an explicit list of shapes, and the private
    symbol behind every accessor installed by [define] by the content kept
    next to the accessor.

    Scope of the embedding.
    - Numbers are integers ([Z]); floating point values are not modelled.
    - Property order is insertion order; the rule that integer-like keys
      come first is not modelled, objects are compared through lookups.
    - Producers are pure observers of the store they are bound to: they
      return a value or throw, and do not mutate a store.
    - Stores are values: a nested store is reached through the slot that
      holds it.  A caller that keeps a reference to a nested store and
      mutates it behind its parent is not modelled.
    - The own property names of an object are pairwise distinct; the
      statements about enumeration assume it of the instance
      ([distinctOwn]), and the operations preserve it.
    - A slot whose name is a member function of [Store.prototype] shadows
      that member.  A public call on an instance with a shadowed member is
      reported as [Unsupported]: the embedding says nothing about it.  So
      is the invocation of a built-in member as if it were a producer,
      except for the members that [callMember] covers.
    - The functions below that embed private methods
      ([getPermissionsForKey], [getDescriptor], ...) are the bodies of
      those methods: they describe the code on instances without a
      shadowed member, and the statements that apply them to the state
      after a write require that the write shadows none.  The one
      shadowing that fails inside the call creating it (a write to the key
      getDescriptor) is modelled as the [TypeError] it is.
    - The result object of [entries] is an ordinary object: an assignment
      to its property __proto__ sets its prototype and creates no entry
      ([setResult]). *)

From Stdlib Require Import String Ascii List ZArith Bool Lia Arith.
From Stdlib Require Import DecimalString.
Import ListNotations.
Local Open Scope string_scope.
Local Open Scope list_scope.

Set Implicit Arguments.
Set Warnings "-register-all".

(** ** Values *)

(** [Permission] tokens are the strings 'r', 'w', 'rw' and 'none'. *)
Definition Permission := string.

(** A prototype object created by the [Restrict] decorator on a subclass:
    the permission table it owns (if any decorator ran on it) and the keys
    for which it owns an accessor. *)
Record shape := mkShape {
  sh_perms : option (list (string * list Permission));
  sh_accessors : list string
}.

Inductive kind := Data | Accessor.

(** [VFun f] is a caller-supplied function (a producer), known by its
    identity; [VMember n] is a built-in member function. *)
Inductive value :=
| VUndefined
| VNull
| VBool (b : bool)
| VNum (n : Z)
| VStr (s : string)
| VArr (xs : list value)
| VObj (kvs : list (string * value))
| VFun (f : nat)
| VMember (name : string)
| VStore (s : store)
with store :=
| mkStore (chain : list shape)
          (hidden : list (string * value))
          (own : list (string * (kind * value))).

Definition chain (s : store) := let (c, _, _) := s in c.
Definition hidden (s : store) := let (_, h, _) := s in h.
Definition own (s : store) := let (_, _, o) := s in o.

(** ** Association lists in property order *)

Fixpoint assoc {A} (k : string) (l : list (string * A)) : option A :=
  match l with
  | [] => None
  | (k', a) :: r => if String.eqb k k' then Some a else assoc k r
  end.

(** Assignment to a property: in place when the key exists, appended
    otherwise. *)
Fixpoint upsert {A} (k : string) (a : A) (l : list (string * A)) : list (string * A) :=
  match l with
  | [] => [(k, a)]
  | (k', a') :: r =>
      if String.eqb k k' then (k, a) :: r else (k', a') :: upsert k a r
  end.

Definition mem (k : string) (l : list string) : bool :=
  existsb (String.eqb k) l.

(** The assignment [result[key] = x] on a plain object.  Under the name
    __proto__ it runs the inherited setter: no property is created (at
    most the prototype of the object changes, which an association list
    of own properties does not show). *)
Definition setResult {A} (key : string) (x : A) (result : list (string * A))
    : list (string * A) :=
  if String.eqb key "__proto__" then result else upsert key x result.

(** ** Paths *)

(** [path.split(':')]. *)
Fixpoint split (s : string) : list string :=
  match s with
  | EmptyString => [EmptyString]
  | String c r =>
      if Ascii.eqb c ":"%char then EmptyString :: split r
      else match split r with
           | h :: t => String c h :: t
           | [] => [String c EmptyString]
           end
  end.

(** [segments.join(':')]. *)
Definition join (l : list string) : string := String.concat ":" l.

(** Decimal rendering of an array index, as [Object.entries] names it. *)
Definition index_key (n : nat) : string :=
  NilEmpty.string_of_uint (Nat.to_uint n).

Fixpoint indexed {A} (n : nat) (l : list A) : list (string * A) :=
  match l with
  | [] => []
  | a :: r => (index_key n, a) :: indexed (S n) r
  end.

Fixpoint chars (s : string) : list value :=
  match s with
  | EmptyString => []
  | String c r => VStr (String c EmptyString) :: chars r
  end.

(** ** Outcomes, and the log of producer invocations *)

Inductive error :=
| PermissionDenied (msg : string)
| TypeError
| Thrown (payload : string)
| Unsupported.

Inductive event := Invoke (f : nat) (this : store).

Definition M (A : Type) : Type := list event -> (error + A) * list event.

Definition ret {A} (a : A) : M A := fun l => (inr a, l).
Definition throw {A} (e : error) : M A := fun l => (inl e, l).
Definition bind {A B} (m : M A) (k : A -> M B) : M B :=
  fun l => match m l with
           | (inl e, l') => (inl e, l')
           | (inr a, l') => k a l'
           end.
Definition emit (e : event) : M unit := fun l => (inr tt, l ++ [e]).
Definition lift {A} (r : error + A) : M A := fun l => (r, l).

Notation "x <- c ;; k" := (bind c (fun x => k))
  (at level 61, c at next level, right associativity).
Notation "c ;;; k" := (bind c (fun _ => k))
  (at level 61, right associativity).

(** ** The object model of a store instance *)

(** Own property names of [Store.prototype], in declaration order. *)
Definition storeMembers : list string :=
  [ "constructor"; "allowedToRead"; "allowedToWrite"; "read"; "write";
    "writeEntries"; "entries"; "checkHasPermissionForKey"; "hasKey";
    "getDescriptor"; "getAllDescriptors"; "getValueForKey";
    "resolveLazyValue"; "getPermissionsForKey" ].

(** Property names every object inherits from [Object.prototype]. *)
Definition objectMembers : list string :=
  [ "constructor"; "__defineGetter__"; "__defineSetter__"; "hasOwnProperty";
    "__lookupGetter__"; "__lookupSetter__"; "isPrototypeOf";
    "propertyIsEnumerable"; "toString"; "valueOf"; "__proto__";
    "toLocaleString" ].

(** [new Store()]: the two field initialisers of the class. *)
Definition newStore : store :=
  mkStore [] []
    [ ("defaultPolicy", (Data, VStr "rw"));
      ("permissionsByKey", (Data, VObj [])) ].

Definition perms_value (p : list (string * list Permission)) : value :=
  VObj (map (fun kv => (fst kv, VArr (map VStr (snd kv)))) p).

Definition hidden_content (hid : list (string * value)) (k : string) : value :=
  match assoc k hid with Some v => v | None => VUndefined end.

(** [Object.getOwnPropertyDescriptor(proto, key)] for a decorated
    prototype; an accessor's getter is read at once on the instance. *)
Definition shape_descriptor (hid : list (string * value)) (sh : shape)
    (k : string) : option (kind * value) :=
  if mem k (sh_accessors sh) then Some (Accessor, hidden_content hid k)
  else if String.eqb k "constructor" then Some (Data, VMember "constructor")
  else if String.eqb k "permissionsByKey" then
    match sh_perms sh with
    | Some p => Some (Data, perms_value p)
    | None => None
    end
  else None.

Fixpoint chain_descriptor (hid : list (string * value)) (ch : list shape)
    (k : string) : option (kind * value) :=
  match ch with
  | [] => if mem k storeMembers then Some (Data, VMember k) else None
  | sh :: r =>
      match shape_descriptor hid sh k with
      | Some d => Some d
      | None => chain_descriptor hid r k
      end
  end.

(** [getDescriptor]: the instance first, then its prototypes, stopping
    before [Object.prototype]. *)
Definition getDescriptor (s : store) (k : string) : option (kind * value) :=
  match assoc k (own s) with
  | Some d => Some d
  | None => chain_descriptor (hidden s) (chain s) k
  end.

Definition hasKey (s : store) (k : string) : bool :=
  match getDescriptor s k with Some _ => true | None => false end.

(** [descriptor?.get?.call(this)]. *)
Definition descriptor_get (d : option (kind * value)) : value :=
  match d with
  | Some (Accessor, c) => c
  | _ => VUndefined
  end.

(** The property read [store[key]]. *)
Definition getProp (s : store) (k : string) : value :=
  match getDescriptor s k with
  | Some (_, v) => v
  | None => if mem k objectMembers then VMember k else VUndefined
  end.

(** Own enumerable string-keyed properties of a value with the values a
    read yields: what [Object.entries] and object spread see. *)
Definition ownEntries (v : value) : list (string * value) :=
  match v with
  | VObj kvs => kvs
  | VArr xs => indexed 0 xs
  | VStr s => indexed 0 (chars s)
  | VStore s => map (fun p => (fst p, snd (snd p))) (own s)
  | _ => []
  end.

(** The indexed read [v[key]]; it throws on [undefined] and [null].
    Inherited built-in properties are never arrays and read as
    [VUndefined] here, their only use being an [Array.isArray] test. *)
Definition index (v : value) (k : string) : error + value :=
  match v with
  | VUndefined | VNull => inl TypeError
  | VStore s => inr (getProp s k)
  | _ => inr (match assoc k (ownEntries v) with
              | Some x => x
              | None => VUndefined
              end)
  end.

Definition truthy (v : value) : bool :=
  match v with
  | VUndefined | VNull | VBool false | VNum 0 | VStr EmptyString => false
  | _ => true
  end.

(** [typeof value === 'object' && value !== null]. *)
Definition isObject (v : value) : bool :=
  match v with
  | VArr _ | VObj _ | VStore _ => true
  | _ => false
  end.

(** A slot or a decorated accessor named like a member of
    [Store.prototype] shadows that member on the instance. *)
Definition shadowed (s : store) : bool :=
  existsb (fun k => mem k storeMembers)
          (map fst (own s) ++ flat_map sh_accessors (chain s)).

(** ** The operations of [Store] ([src/store.ts]) *)

Section StoreOps.

(** The producers known to the program: [call f this] is the outcome of
    invoking function [f] with [this] bound to the given store. *)
Variable call : nat -> store -> error + value.

(** A built-in member invoked as a producer, that is with [this] bound
    and no argument, so that its parameters are undefined.
    [getDescriptor] looks for a property named undefined and returns null
    when there is none (the descriptor object it returns otherwise is not
    a value of the embedding); [hasKey] tests the same descriptor;
    [valueOf], inherited from [Object.prototype], returns the instance;
    the members that split or enumerate their argument throw a
    TypeError.  The other members are outside the embedding. *)
Definition callMember (name : string) (context : store) : M value :=
  if String.eqb name "getDescriptor" then
    match getDescriptor context "undefined" with
    | None => ret VNull
    | Some _ => throw Unsupported
    end
  else if String.eqb name "hasKey" then
    ret (VBool (hasKey context "undefined"))
  else if String.eqb name "valueOf" then ret (VStore context)
  else if mem name [ "allowedToRead"; "allowedToWrite";
                     "checkHasPermissionForKey"; "read"; "write";
                     "writeEntries" ]
  then throw TypeError
  else throw Unsupported.

(** [resolveValue(value, context)], and likewise [resolveLazyValue]. *)
Definition resolveValue (v : value) (context : store) : M value :=
  match v with
  | VFun f => emit (Invoke f context) ;;; lift (call f context)
  | VMember name => callMember name context
  | _ => ret v
  end.

Fixpoint chain_permissions (ch : list shape) (k : string) : list value :=
  match ch with
  | [] => []
  | sh :: r =>
      match sh_perms sh with
      | Some p =>
          match assoc k p with
          | Some ps => map VStr ps
          | None => chain_permissions r k
          end
      | None => chain_permissions r k
      end
  end.

(** [getPermissionsForKey]: the instance's own table, then the tables of
    the prototypes, then the empty list. *)
Definition getPermissionsForKey (s : store) (k : string) : error + list value :=
  match index (getProp s "permissionsByKey") k with
  | inl e => inl e
  | inr (VArr ps) => inr ps
  | inr _ => inr (chain_permissions (chain s) k)
  end.

Definition getValueForKey (s : store) (k : string) : M value :=
  let v := match getDescriptor s k with
           | Some (Accessor, c) => c
           | _ => getProp s k
           end in
  resolveValue v s.

(** [permissions.includes(x)] for a list of permission tokens. *)
Definition includes (permissions : list Permission) (x : value) : bool :=
  match x with
  | VStr p => mem p permissions
  | _ => false
  end.

(** Lines 127-136 of [checkHasPermissionForKey]: the decision taken on
    the instance itself. *)
Definition localPermission (s : store) (key : string)
    (permissions : list Permission) : M bool :=
  keyPerms <- lift (getPermissionsForKey s key) ;;
  if hasKey s key && negb (Nat.eqb (length keyPerms) 0)
  then ret (existsb (includes permissions) keyPerms)
  else
    match getProp s "defaultPolicy" with
    | VStr "none" => ret false
    | policy => ret (includes permissions policy)
    end.

(** [checkHasPermissionForKey] on the segments [first :: rest] of the
    key. *)
Fixpoint checkSegments (rest : list string) (first : string) (s : store)
    (permissions : list Permission) {struct rest} : M bool :=
  if shadowed s then throw Unsupported else
  match rest with
  | [] => localPermission s (join [first]) permissions
  | next :: rest' =>
      v <- getValueForKey s first ;;
      match v with
      | VStore child => checkSegments rest' next child permissions
      | _ => localPermission s (join (first :: rest)) permissions
      end
  end.

Definition checkHasPermissionForKey (s : store) (key : string)
    (permissions : list Permission) : M bool :=
  match split key with
  | first :: rest => checkSegments rest first s permissions
  | [] => throw TypeError
  end.

Definition allowedToRead (s : store) (key : string) : M bool :=
  checkHasPermissionForKey s key ["r"; "rw"].

Definition allowedToWrite (s : store) (key : string) : M bool :=
  checkHasPermissionForKey s key ["w"; "rw"].

(** [read] on the segments [first :: rest] of the path. *)
Fixpoint readSegments (rest : list string) (first : string) (s : store)
    {struct rest} : M value :=
  ok <- checkSegments rest first s ["r"; "rw"] ;;
  if negb ok
  then throw (PermissionDenied
                (String.append "Not allowed to read for path "
                               (join (first :: rest))))
  else
    let rawValue := descriptor_get (getDescriptor s first) in
    match rest with
    | [] => resolveValue rawValue s
    | next :: rest' =>
        resolvedValue <- resolveValue rawValue s ;;
        match resolvedValue with
        | VStore child => readSegments rest' next child
        | _ => ret resolvedValue
        end
    end.

Definition read (s : store) (path : string) : M value :=
  match split path with
  | first :: rest => readSegments rest first s
  | [] => throw TypeError
  end.

(** The assignment [target[k] = v]: an own property keeps its kind, an
    inherited accessor stores behind its symbol, anything else creates
    an own data property. *)
Definition assign (s : store) (k : string) (v : value) : store :=
  match assoc k (own s) with
  | Some (kd, _) => mkStore (chain s) (hidden s) (upsert k (kd, v) (own s))
  | None =>
      match chain_descriptor (hidden s) (chain s) k with
      | Some (Accessor, _) =>
          mkStore (chain s) (upsert k v (hidden s)) (own s)
      | _ => mkStore (chain s) (hidden s) (upsert k (Data, v) (own s))
      end
  end.

(** [define(target, propertyKey, params)] on an instance: the permission
    table is rebuilt with the key's list, then the key gets a new accessor
    over a new private symbol, so its content reads [undefined]. *)
Definition define (target : store) (key : string) (params : list value) : store :=
  let table := getProp target "permissionsByKey" in
  let base := if truthy table then ownEntries table else [] in
  let target1 := assign target "permissionsByKey"
                        (VObj (upsert key (VArr params) base)) in
  mkStore (chain target1) (hidden target1)
          (upsert key (Accessor, VUndefined) (own target1)).

(** [descriptor.set.call(this, v)] for the own accessor of [key]. *)
Definition setSlot (s : store) (key : string) (v : value) : store :=
  mkStore (chain s) (hidden s) (upsert key (Accessor, v) (own s)).

(** A mutating call on an instance yields an outcome together with the
    instance as the call leaves it, also when it throws. *)
Definition W (A : Type) : Type :=
  list event -> ((error + A) * store) * list event.

Definition doneW {A} (a : A) (s : store) : W A := fun l => ((inr a, s), l).
Definition failW {A} (e : error) (s : store) : W A := fun l => ((inl e, s), l).

(** A step that does not mutate: if it throws, the instance is as [s]. *)
Definition stepW {A B} (s : store) (m : M A) (k : A -> W B) : W B :=
  fun l => match m l with
           | (inl e, l') => ((inl e, s), l')
           | (inr a, l') => k a l'
           end.

(** A mutating call [w] on another instance (a child); [wrap c] is this
    instance once the other one has become [c]. *)
Definition subW {A B} (w : W A) (wrap : store -> store)
    (k : A -> store -> W B) : W B :=
  fun l => match w l with
           | ((inl e, c), l') => ((inl e, wrap c), l')
           | ((inr a, c), l') => k a c l'
           end.

(** [this.write(key, x)] for one entry of [writeEntries], given [write]
    for the value [x]. *)
Definition writeKey (w : list string -> string -> store -> W value)
    (key : string) (s : store) : W unit :=
  match split key with
  | first :: rest => subW (w rest first s) (fun c => c) (fun _ c => doneW tt c)
  | [] => failW TypeError s
  end.

(** [write], by recursion on the written value (for [writeEntries] into
    the new nested store) and, inside, on the segments of the path. *)
Fixpoint writeValue (value0 : value) {struct value0}
    : list string -> string -> store -> W value :=
  (* newStore.writeEntries(value): Object.entries(value).forEach(write) *)
  let writeEntriesOf : store -> W unit :=
      match value0 with
      | VObj kvs =>
          (fix each (l : list (string * value)) (s : store) : W unit :=
             match l with
             | [] => doneW tt s
             | (k, x) :: r =>
                 subW (writeKey (writeValue x) k s) (fun c => c)
                      (fun _ c => each r c)
             end) kvs
      | VArr xs =>
          (fix each (n : nat) (l : list value) (s : store) : W unit :=
             match l with
             | [] => doneW tt s
             | x :: r =>
                 subW (writeKey (writeValue x) (index_key n) s) (fun c => c)
                      (fun _ c => each (S n) r c)
             end) 0%nat xs
      | VStore (mkStore _ _ props) =>
          (fix each (l : list (string * (kind * value))) (s : store) : W unit :=
             match l with
             | [] => doneW tt s
             | (k, (_, x)) :: r =>
                 subW (writeKey (writeValue x) k s) (fun c => c)
                      (fun _ c => each r c)
             end) props
      | _ => doneW tt
      end in
  fix segments (rest : list string) (first : string) (s : store)
      {struct rest} : W value :=
    stepW s (checkSegments rest first s ["w"; "rw"]) (fun ok =>
    if negb ok
    then failW (PermissionDenied
                  (String.append "Not allowed to write for path "
                                 (join (first :: rest)))) s
    else
      stepW s (lift (getPermissionsForKey s first)) (fun perms =>
      let s1 := define s first perms in
      (* this.getDescriptor is looked up after define *)
      if String.eqb first "getDescriptor" then failW TypeError s1 else
      match rest with
      | [] =>
          if isObject value0 then
            subW (writeEntriesOf newStore) (fun _ => s1) (fun _ nested =>
            let s2 := setSlot s1 first (VStore nested) in
            doneW (descriptor_get (getDescriptor s2 first)) s2)
          else
            let s2 := setSlot s1 first value0 in
            doneW (descriptor_get (getDescriptor s2 first)) s2
      | next :: rest' =>
          let currentValue := descriptor_get (getDescriptor s1 first) in
          stepW s1 (resolveValue currentValue s1) (fun resolvedValue =>
          match resolvedValue with
          | VStore child =>
              let wrap c := match currentValue with
                            | VStore _ => setSlot s1 first (VStore c)
                            | _ => s1
                            end in
              subW (segments rest' next child) wrap
                   (fun _ c => doneW (VStore c) (wrap c))
          | _ =>
              let wrap c := setSlot s1 first (VStore c) in
              subW (segments rest' next newStore) wrap
                   (fun _ c => doneW (VStore c) (wrap c))
          end)
      end)).

Definition write (s : store) (path : string) (v : value) : W value :=
  match split path with
  | first :: rest => writeValue v rest first s
  | [] => failW TypeError s
  end.

(** [writeEntries(entries)]: one [write] for each own enumerable entry,
    stopping at the first that throws. *)
Fixpoint writeEach (l : list (string * value)) (s : store) : W unit :=
  match l with
  | [] => doneW tt s
  | (k, x) :: r =>
      subW (write s k x) (fun c => c) (fun _ c => writeEach r c)
  end.

Definition writeEntries (s : store) (entries : value) : W unit :=
  writeEach (ownEntries entries) s.

(** [Object.getOwnPropertyDescriptors] of the immediate prototype, as
    [Object.entries] lists them. *)
Definition shapeDescriptors (hid : list (string * value)) (sh : shape)
    : list (string * (kind * value)) :=
  fold_left (fun acc k => upsert k (Accessor, hidden_content hid k) acc)
            (sh_accessors sh)
            (("constructor", (Data, VMember "constructor")) ::
             match sh_perms sh with
             | Some p => [("permissionsByKey", (Data, perms_value p))]
             | None => []
             end).

Definition prototypeDescriptors (s : store) : list (string * (kind * value)) :=
  match chain s with
  | [] => map (fun k => (k, (Data, VMember k))) storeMembers
  | sh :: _ => shapeDescriptors (hidden s) sh
  end.

(** [getAllDescriptors]: the prototype's descriptors overlaid with the
    instance's own. *)
Definition getAllDescriptors (s : store) : list (string * (kind * value)) :=
  fold_left (fun acc p => upsert (fst p) (snd p) acc) (own s)
            (prototypeDescriptors s).

(** [descriptor.get?.call(this) ?? descriptor.value]. *)
Definition descriptorValue (d : kind * value) : value :=
  match d with
  | (Accessor, VUndefined) | (Accessor, VNull) => VUndefined
  | (_, v) => v
  end.

(** The loop of [entries]; [nestedEntries key] stands for [val.entries()]
    on the nested store found under [key]. *)
Fixpoint entriesLoop (s : store) (nestedEntries : string -> M value)
    (ds : list (string * (kind * value))) (result : list (string * value))
    : M value :=
  match ds with
  | [] => ret (VObj result)
  | (key, d) :: r =>
      match descriptorValue d with
      | VStore _ =>
          x <- nestedEntries key ;;
          entriesLoop s nestedEntries r (setResult key x result)
      | val =>
          ok <- allowedToRead s key ;;
          if ok then entriesLoop s nestedEntries r (setResult key val result)
          else entriesLoop s nestedEntries r result
      end
  end.

Definition entriesOf (rec : store -> M value) (v : value) : M value :=
  match v with
  | VStore c => rec c
  | _ => ret VUndefined
  end.

(** [entries], by recursion on the nesting of stores: the recursive
    results are tabulated per slot and consulted by the loop. *)
Fixpoint entries (s : store) : M value :=
  match s with
  | mkStore ch hid ow =>
      let ofHidden :=
        (fix tab (l : list (string * value)) : list (string * M value) :=
           match l with
           | [] => []
           | (k, v) :: r =>
               (k, match v with VStore c => entries c | _ => ret VUndefined end)
               :: tab r
           end) hid in
      let ofOwn :=
        (fix tab (l : list (string * (kind * value))) : list (string * M value) :=
           match l with
           | [] => []
           | (k, (_, v)) :: r =>
               (k, match v with VStore c => entries c | _ => ret VUndefined end)
               :: tab r
           end) ow in
      let nestedEntries key :=
        match assoc key ofOwn with
        | Some m => m
        | None =>
            match assoc key ofHidden with
            | Some m => m
            | None => ret VUndefined
            end
        end in
      if shadowed s then throw Unsupported
      else entriesLoop s nestedEntries (getAllDescriptors s) []
  end.

End StoreOps.

(** ** The flat variant (the second source file)

    There the decorator installs the accessor on the prototype and its
    setter records the permissions; [read] and [write] look the whole path
    string up as one key on the immediate prototype. *)

Module Flat.

(** Own property names of the variant's [Store.prototype]. *)
Definition storeMembers : list string :=
  [ "constructor"; "allowedToRead"; "allowedToWrite"; "read"; "write";
    "writeEntries"; "entries"; "checkHasPermissionForKey"; "hasKey";
    "getAllDescriptors"; "getDescriptor" ].

(** An instance: the accessors its immediate prototype got from
    [Restrict] with their parameters ([None] for a direct instance of
    [Store]), the two fields, and the contents behind the accessors. *)
Record store := mkStore {
  decorated : option (list (string * list Permission));
  defaultPolicy : Permission;
  permissionsByKey : list (string * list Permission);
  contents : list (string * value)
}.

Definition newStore : store := mkStore None "rw" [] [].

(** [getDescriptor]: own descriptors of the immediate prototype only. *)
Definition getDescriptor (s : store) (key : string) : option (kind * value) :=
  match decorated s with
  | None => if mem key storeMembers then Some (Data, VMember key) else None
  | Some acc =>
      if mem key (map fst acc) then Some (Accessor, hidden_content (contents s) key)
      else if String.eqb key "constructor"
           then Some (Data, VMember "constructor") else None
  end.

Definition hasKey (s : store) (key : string) : bool :=
  match getDescriptor s key with Some _ => true | None => false end.

Definition shadowed (s : store) : bool :=
  match decorated s with
  | None => false
  | Some acc => existsb (fun k => mem k storeMembers) (map fst acc)
  end.

(** [checkHasPermissionForKey]: no splitting of the key.  A key missing
    from the table but inherited from [Object.prototype] reads as a
    non-array, on which [some] is not callable. *)
Definition checkHasPermissionForKey (s : store) (key : string)
    (permissions : list Permission) : M bool :=
  if shadowed s then throw Unsupported else
  match assoc key (permissionsByKey s) with
  | None =>
      if hasKey s key then
        if mem key objectMembers then throw TypeError else ret false
      else if String.eqb (defaultPolicy s) "none" then ret false
      else ret (mem (defaultPolicy s) permissions)
  | Some keyPerms =>
      if hasKey s key
      then ret (existsb (fun p => mem p permissions) keyPerms)
      else if String.eqb (defaultPolicy s) "none" then ret false
      else ret (mem (defaultPolicy s) permissions)
  end.

Definition allowedToRead (s : store) (key : string) : M bool :=
  checkHasPermissionForKey s key ["r"; "rw"].

Definition allowedToWrite (s : store) (key : string) : M bool :=
  checkHasPermissionForKey s key ["w"; "rw"].

Definition read (s : store) (path : string) : M value :=
  ok <- allowedToRead s path ;;
  if negb ok
  then throw (PermissionDenied
                (String.append "Not allowed to read for path " path))
  else ret (descriptor_get (getDescriptor s path)).

(** The setter installed by [Restrict]. *)
Definition setSlot (s : store) (key : string) (v : value) : store :=
  match decorated s with
  | Some acc =>
      match assoc key acc with
      | Some params =>
          mkStore (decorated s) (defaultPolicy s)
                  (upsert key params (permissionsByKey s))
                  (upsert key v (contents s))
      | None => s
      end
  | None => s
  end.

Definition write (s : store) (path : string) (v : value) : M (value * store) :=
  ok <- allowedToWrite s path ;;
  if negb ok
  then throw (PermissionDenied
                (String.append "Not allowed to write for path " path))
  else
    let s' := setSlot s path v in
    ret (descriptor_get (getDescriptor s' path), s').

End Flat.

(** ** Auxiliary definitions for the statements *)

(** The decision of [localPermission] once the key's list is known. *)
Definition decision (s : store) (key : string) (permissions : list Permission)
    (keyPerms : list value) : bool :=
  if hasKey s key && negb (Nat.eqb (length keyPerms) 0)
  then existsb (includes permissions) keyPerms
  else match getProp s "defaultPolicy" with
       | VStr "none" => false
       | policy => includes permissions policy
       end.

(** A JSON primitive: string, number, boolean or null. *)
Definition isPrimitive (v : value) : bool :=
  match v with
  | VNull | VBool _ | VNum _ | VStr _ => true
  | _ => false
  end.

(** The instance as a call of [write] leaves it. *)
Definition afterWrite (r : ((error + value) * store) * list event) : store :=
  snd (fst r).

(** Two producers for the examples: producer 0 is
    [function () { return this.n }], producer 1 returns 7. *)
Definition sampleCall (f : nat) (this : store) : error + value :=
  match f with
  | 0%nat => inr (getProp this "n")
  | 1%nat => inr (VNum 7)
  | _ => inl (Thrown "unknown function")
  end.

(** Stores for the examples, built through the interface: a counter [n]
    next to a producer [p] that returns it, before and after [n] changes. *)
Definition counterStore : store :=
  afterWrite (write sampleCall
                (afterWrite (write sampleCall newStore "n" (VNum 1) []))
                "p" (VFun 0) []).


(** [isStore(value)]. *)
Definition isStore (v : value) : bool :=
  match v with VStore _ => true | _ => false end.

(** A store holding a nested store under [a], whose own policy is then
    set to none: [s.write('a:b', 1); s.defaultPolicy = 'none']. *)
Definition nonePolicyStore : store :=
  assign (afterWrite (write sampleCall newStore "a:b" (VNum 1) []))
         "defaultPolicy" (VStr "none").

(** What the delegation step of [checkHasPermissionForKey] finds at the
    head of a key: nothing to look at for a single segment, otherwise the
    resolved value [v] of the first segment, which is not a store. *)
Definition headIsNoStore (call : nat -> store -> error + value) (s : store)
    (first : string) (rest : list string) (l l1 : list event) : Prop :=
  match rest with
  | [] => l1 = l
  | _ :: _ => exists v, getValueForKey call s first l = (inr v, l1) /\
                        isStore v = false
  end.

(** [val.entries()] for the value found under [key] by the loop of
    [entries]: an own property hides the content of an inherited
    accessor. *)
Definition nestedOf (call : nat -> store -> error + value) (s : store)
    (key : string) : M value :=
  match assoc key (own s) with
  | Some (_, v) => entriesOf (entries call) v
  | None =>
      match assoc key (hidden s) with
      | Some v => entriesOf (entries call) v
      | None => ret VUndefined
      end
  end.

(** The own property names of an object are pairwise distinct. *)
Definition distinctOwn (s : store) : Prop := NoDup (map fst (own s)).

(** The object [entries] returns for [counterStore]. *)
Definition counterEntries : list (string * value) :=
  Eval vm_compute in
    match fst (entries sampleCall counterStore []) with
    | inr (VObj res) => res
    | _ => []
    end.



(** ** Declarations on a class ([Restrict], [define] on a prototype) *)

(** [target.permissionsByKey] read on a prototype: its own table, or
    the nearest one up the chain. *)
Fixpoint inheritedTable (protos : list shape) : list (string * list Permission) :=
  match protos with
  | [] => []
  | sh :: r =>
      match sh_perms sh with
      | Some p => p
      | None => inheritedTable r
      end
  end.

(** [Restrict(...params)(target, propertyKey)], that is
    [define(target, propertyKey, params)] on the prototype [target] of a
    class whose ancestors' prototypes are [ancestors]: the prototype gets
    its own copy of the table with the key's list, and an accessor for the
    key.  The key permissionsByKey, whose accessor would replace the
    table itself, is outside the embedding. *)
Definition Restrict (params : list Permission) (ancestors : list shape)
    (target : shape) (propertyKey : string) : option shape :=
  if String.eqb propertyKey "permissionsByKey" then None
  else
    Some (mkShape
            (Some (upsert propertyKey params
                          (inheritedTable (target :: ancestors))))
            (if mem propertyKey (sh_accessors target)
             then sh_accessors target
             else sh_accessors target ++ [propertyKey])).

(** A new instance of a class with the given prototypes: the two field
    initialisers of [Store] run as assignments on the new object. *)
Definition instanceOf (protos : list shape) : store :=
  assign (assign (mkStore protos [] []) "defaultPolicy" (VStr "rw"))
         "permissionsByKey" (VObj []).

(** [class Vault extends Store { @Restrict('w') secret }] and an
    instance of it. *)
Definition vaultShape : shape :=
  match Restrict ["w"] [] (mkShape None []) "secret" with
  | Some sh => sh
  | None => mkShape None []
  end.

Definition vault : store := instanceOf [vaultShape].

(** ** Ordinary keys and the stores a path write creates *)

(** Names with a meaning of their own on a store instance. *)
Definition reserved : list string :=
  storeMembers ++ objectMembers ++ ["defaultPolicy"; "permissionsByKey"].

(** An ordinary key: one segment, not a reserved name. *)
Definition ordinary (k : string) : Prop :=
  split k = [k] /\ mem k reserved = false.

(** A new store after one write: the key's (empty) permission list is
    recorded and its slot holds [x]. *)
Definition holder (k : string) (x : value) : store :=
  mkStore [] []
    [ ("defaultPolicy", (Data, VStr "rw"));
      ("permissionsByKey", (Data, VObj [(k, VArr [])]));
      (k, (Accessor, x)) ].

(** The chain of stores that holds [v] under the segments
    [next :: rest]. *)
Fixpoint chainStore (rest : list string) (next : string) (v : value) : store :=
  match rest with
  | [] => holder next v
  | n :: rest' => holder next (VStore (chainStore rest' n v))
  end.

(** A direct instance of [Store] with the read-write default policy,
    no shadowed member, and a permission table that records only empty
    lists: what a new store is, and stays under writes of ordinary keys. *)
Definition flatStore (s : store) : Prop :=
  chain s = [] /\
  shadowed s = false /\
  assoc "defaultPolicy" (own s) = Some (Data, VStr "rw") /\
  exists tbl,
    assoc "permissionsByKey" (own s) = Some (Data, VObj tbl) /\
    Forall (fun kv => snd kv = VArr []) tbl.

(** An object whose keys are ordinary and distinct and whose values are
    primitives. *)
Definition flatObject (kvs : list (string * value)) : Prop :=
  Forall (fun kv => ordinary (fst kv) /\ isPrimitive (snd kv) = true) kvs /\
  NoDup (map fst kvs).

(** The instance as any mutating call leaves it. *)
Definition stateAfter {A} (r : ((error + A) * store) * list event) : store :=
  snd (fst r).

(** The first segment of a path. *)
Definition firstSegment (path : string) : string :=
  match split path with
  | first :: _ => first
  | [] => EmptyString
  end.

(** A store whose slot [n] holds a nested store and whose slot [p]
    holds producer 0, which returns what [n] holds. *)
Definition producerStore : store :=
  afterWrite (write sampleCall
                (afterWrite (write sampleCall newStore "n:b" (VNum 5) []))
                "p" (VFun 0) []).

(** ** Enumeration in the flat variant *)

Module FlatEnumeration.

(** [getAllDescriptors]: the own descriptors of the immediate prototype;
    an accessor's descriptor has no value. *)
Definition getAllDescriptors (s : Flat.store) : list (string * (kind * value)) :=
  match Flat.decorated s with
  | None => map (fun k => (k, (Data, VMember k))) Flat.storeMembers
  | Some acc =>
      fold_left (fun ds k => upsert k (Accessor, VUndefined) ds)
                (map fst acc)
                [("constructor", (Data, VMember "constructor"))]
  end.

(** [descriptor.value]. *)
Definition descriptorValue (d : kind * value) : value :=
  match d with
  | (Data, v) => v
  | (Accessor, _) => VUndefined
  end.

Fixpoint entriesLoop (s : Flat.store) (ds : list (string * (kind * value)))
    (result : list (string * value)) : M value :=
  match ds with
  | [] => ret (VObj result)
  | (key, d) :: r =>
      ok <- Flat.allowedToRead s key ;;
      if ok then entriesLoop s r (setResult key (descriptorValue d) result)
      else entriesLoop s r result
  end.

Definition entries (s : Flat.store) : M value :=
  entriesLoop s (getAllDescriptors s) [].

End FlatEnumeration.

(** [class Vault extends Store { @Restrict('rw') secret }] in the flat
    variant, before any assignment to the field. *)
Definition flatVault : Flat.store :=
  Flat.mkStore (Some [("secret", ["rw"])]) "rw" [] [].

(** ** Stores all of whose property names are single segments *)





(** * Properties *)

(** ** Association lists and paths *)

Lemma assoc_upsert_same {A} (k : string) (a : A) (l : list (string * A)) :
  assoc k (upsert k a l) = Some a.
Proof.
  induction l as [|[k' a'] r IH]; simpl.
  - now rewrite String.eqb_refl.
  - destruct (String.eqb k k') eqn:E; simpl.
    + now rewrite String.eqb_refl.
    + now rewrite E.
Qed.

Lemma assoc_upsert_other {A} (k k' : string) (a : A) (l : list (string * A)) :
  String.eqb k' k = false -> assoc k' (upsert k a l) = assoc k' l.
Proof.
  intros N. induction l as [|[k0 a0] r IH]; simpl.
  - now rewrite N.
  - destruct (String.eqb k k0) eqn:E; simpl.
    + apply String.eqb_eq in E. subst k0. now rewrite N.
    + destruct (String.eqb k' k0); [reflexivity | exact IH].
Qed.


Lemma split_not_nil (s : string) : split s <> [].
Proof.
  destruct s as [|c r]; simpl; [discriminate|].
  destruct (Ascii.eqb c ":"); [discriminate|].
  destruct (split r); discriminate.
Qed.

(** Splitting and joining are inverse on a path. *)
Lemma join_split (s : string) : join (split s) = s.
Proof.
  induction s as [|c r IH]; simpl; [reflexivity|].
  destruct (Ascii.eqb c ":") eqn:E.
  - apply Ascii.eqb_eq in E. subst c.
    unfold join in *. simpl.
    destruct (split r) eqn:S; [now destruct (split_not_nil r)|].
    simpl in *. now rewrite IH.
  - unfold join in *.
    destruct (split r) as [|h t] eqn:S; [now destruct (split_not_nil r)|].
    simpl in *. destruct t; simpl in *; now rewrite <- IH.
Qed.

(** ** Unfolding the operations on a single segment *)

Ltac unfold_monad :=
  unfold bind, ret, throw, lift, emit, stepW, subW, doneW, failW in *.

Section SingleSegment.

Variable call : nat -> store -> error + value.

Lemma localPermission_run s key permissions l :
  localPermission s key permissions l =
  match getPermissionsForKey s key with
  | inl e => (inl e, l)
  | inr kp => (inr (decision s key permissions kp), l)
  end.
Proof.
  unfold localPermission, decision. unfold_monad.
  destruct (getPermissionsForKey s key) as [e|kp]; [reflexivity|].
  destruct (hasKey s key && negb (Nat.eqb (length kp) 0)); [reflexivity|].
  destruct (getProp s "defaultPolicy") as [| | | |p| | | | |]; try reflexivity.
  destruct p as [|[[] [] [] [] [] [] [] []] p1]; try reflexivity.
  destruct p1 as [|[[] [] [] [] [] [] [] []] p2]; try reflexivity.
  destruct p2 as [|[[] [] [] [] [] [] [] []] p3]; try reflexivity.
  destruct p3 as [|[[] [] [] [] [] [] [] []] p4]; try reflexivity.
  destruct p4; reflexivity.
Qed.

Lemma join_single (k : string) : join [k] = k.
Proof. reflexivity. Qed.

(** A permission check on a single segment neither throws a producer's
    failure nor logs anything. *)
Lemma checkSegments_single s first permissions l :
  checkSegments call [] first s permissions l =
  if shadowed s then (inl Unsupported, l)
  else match getPermissionsForKey s first with
       | inl e => (inl e, l)
       | inr kp => (inr (decision s first permissions kp), l)
       end.
Proof.
  simpl. destruct (shadowed s); [reflexivity|].
  now rewrite join_single, localPermission_run.
Qed.

Lemma checkSegments_single_inv s first permissions l b l1 :
  checkSegments call [] first s permissions l = (inr b, l1) ->
  shadowed s = false /\ l1 = l /\
  exists kp, getPermissionsForKey s first = inr kp /\
             b = decision s first permissions kp.
Proof.
  rewrite checkSegments_single.
  destruct (shadowed s); [discriminate|].
  destruct (getPermissionsForKey s first) as [e|kp]; [discriminate|].
  intros H. inversion H. subst. repeat split. now exists kp.
Qed.

Lemma getDescriptor_setSlot s key v :
  getDescriptor (setSlot s key v) key = Some (Accessor, v).
Proof.
  unfold getDescriptor, setSlot. simpl. now rewrite assoc_upsert_same.
Qed.

Lemma getDescriptor_define s key params :
  getDescriptor (define s key params) key = Some (Accessor, VUndefined).
Proof.
  unfold getDescriptor, define. simpl. now rewrite assoc_upsert_same.
Qed.

(** [write] to a single segment with a value that is not an object. *)
Lemma writeValue_single_leaf v first s l :
  isObject v = false ->
  writeValue call v [] first s l =
  match checkSegments call [] first s ["w"; "rw"] l with
  | (inl e, l1) => ((inl e, s), l1)
  | (inr false, l1) =>
      ((inl (PermissionDenied
               (String.append "Not allowed to write for path " (join [first]))),
        s), l1)
  | (inr true, l1) =>
      match getPermissionsForKey s first with
      | inl e => ((inl e, s), l1)
      | inr perms =>
          if String.eqb first "getDescriptor"
          then ((inl TypeError, define s first perms), l1)
          else ((inr v, setSlot (define s first perms) first v), l1)
      end
  end.
Proof.
  intros Hv.
  destruct v; try discriminate Hv; cbn [writeValue isObject]; unfold_monad;
    (destruct (checkSegments call [] first s ["w"; "rw"] l) as [[e|[|]] l1];
     cbn [negb]; try reflexivity;
     destruct (getPermissionsForKey s first) as [e'|perms]; try reflexivity;
     destruct (String.eqb first "getDescriptor"); try reflexivity;
     now rewrite getDescriptor_setSlot).
Qed.

(** [read] of a single segment. *)
Lemma readSegments_single first s l :
  readSegments call [] first s l =
  match checkSegments call [] first s ["r"; "rw"] l with
  | (inl e, l1) => (inl e, l1)
  | (inr false, l1) =>
      (inl (PermissionDenied
              (String.append "Not allowed to read for path " (join [first]))),
       l1)
  | (inr true, l1) =>
      resolveValue call (descriptor_get (getDescriptor s first)) s l1
  end.
Proof.
  cbn [readSegments]. unfold_monad.
  destruct (checkSegments call [] first s ["r"; "rw"] l) as [[e|[|]] l1];
    reflexivity.
Qed.

Lemma write_single key v s l :
  split key = [key] -> write call s key v l = writeValue call v [] key s l.
Proof. intros H. unfold write. now rewrite H. Qed.

Lemma read_single key s l :
  split key = [key] -> read call s key l = readSegments call [] key s l.
Proof. intros H. unfold read. now rewrite H. Qed.

Lemma allowedToWrite_single key s l :
  split key = [key] ->
  allowedToWrite call s key l = checkSegments call [] key s ["w"; "rw"] l.
Proof.
  intros H. unfold allowedToWrite, checkHasPermissionForKey. now rewrite H.
Qed.

Lemma allowedToRead_single key s l :
  split key = [key] ->
  allowedToRead call s key l = checkSegments call [] key s ["r"; "rw"] l.
Proof.
  intros H. unfold allowedToRead, checkHasPermissionForKey. now rewrite H.
Qed.

End SingleSegment.

(** ** Writing a leaf, reading it back *)

Section Leaves.

Variable call : nat -> store -> error + value.

(** C3, as amended: on a single-segment key with write permission (other
    than getDescriptor), [write] of a value that is not an object stores
    the value as it is and returns the raw content of the slot, which for
    a producer is the producer itself and not its result. *)
Theorem write_leaf_returns_stored_content s key v l :
  split key = [key] ->
  isObject v = false ->
  allowedToWrite call s key l = (inr true, l) ->
  String.eqb key "getDescriptor" = false ->
  exists s',
    write call s key v l = ((inr v, s'), l) /\
    descriptor_get (getDescriptor s' key) = v.
Proof.
  intros Hk Hv Hw Hg.
  rewrite allowedToWrite_single in Hw by assumption.
  rewrite write_single by assumption.
  rewrite writeValue_single_leaf by assumption.
  rewrite Hw.
  destruct (checkSegments_single_inv _ _ _ _ _ Hw) as (_ & _ & kp & Hp & _).
  rewrite Hp, Hg.
  eexists. split; [reflexivity|].
  now rewrite getDescriptor_setSlot.
Qed.



End Leaves.

Lemma write_leaf_returns_stored_content_witness :
  exists s',
    write sampleCall newStore "p" (VFun 1) [] = ((inr (VFun 1), s'), []) /\
    descriptor_get (getDescriptor s' "p") = VFun 1.
Proof.
  apply (@write_leaf_returns_stored_content sampleCall newStore "p" (VFun 1) []);
    reflexivity.
Defined.

(** C3 fails as stated: writing producer 1 (which returns 7) returns the
    producer, whereas the resolved value of the slot is 7. *)
Lemma write_producer_returns_unresolved :
  let r := write sampleCall newStore "p" (VFun 1) [] in
  fst (fst r) = inr (VFun 1) /\
  fst (resolveValue sampleCall
         (descriptor_get (getDescriptor (afterWrite r) "p")) (afterWrite r) [])
    = inr (VNum 7) /\
  fst (fst r) <>
  fst (resolveValue sampleCall
         (descriptor_get (getDescriptor (afterWrite r) "p")) (afterWrite r) []).
Proof.
  cbv zeta. repeat split; try (vm_compute; reflexivity).
  vm_compute. discriminate.
Qed.



(** ** The default policy none *)

Section PolicyNone.

Variable call : nat -> store -> error + value.

Lemma checkSegments_local s first rest permissions l l1 :
  shadowed s = false ->
  headIsNoStore call s first rest l l1 ->
  checkSegments call rest first s permissions l =
  localPermission s (join (first :: rest)) permissions l1.
Proof.
  intros Hs Hh. destruct rest as [|next rest']; cbn [checkSegments]; rewrite Hs.
  - simpl in Hh. now subst.
  - destruct Hh as (v & Hv & Hn). unfold bind. rewrite Hv.
    destruct v; try discriminate Hn; reflexivity.
Qed.



Lemma writeValue_denied v rest first s l l1 :
  checkSegments call rest first s ["w"; "rw"] l = (inr false, l1) ->
  writeValue call v rest first s l =
  ((inl (PermissionDenied
           (String.append "Not allowed to write for path "
                          (join (first :: rest)))), s), l1).
Proof.
  intros H.
  destruct v as [| | | | | | | | |[c h o]]; destruct rest;
    cbn [writeValue]; unfold_monad; rewrite H; reflexivity.
Qed.


End PolicyNone.





(** ** Writing an object or an array *)

Section Objects.

Variable call : nat -> store -> error + value.

Lemma subW_writeKey {B} x k s (g : store -> W B) l :
  subW (writeKey (writeValue call x) k s) (fun c => c) (fun _ c => g c) l =
  subW (write call s k x) (fun c => c) (fun _ c => g c) l.
Proof.
  unfold writeKey, write. destruct (split k) as [|first rest]; [reflexivity|].
  unfold_monad.
  destruct (writeValue call x rest first s l) as [[[e|a] c] l']; reflexivity.
Qed.

Lemma each_object kvs : forall s l,
  (fix each (l : list (string * value)) (s : store) : W unit :=
     match l with
     | [] => doneW tt s
     | (k, x) :: r =>
         subW (writeKey (writeValue call x) k s) (fun c => c)
              (fun _ c => each r c)
     end) kvs s l = writeEach call kvs s l.
Proof.
  induction kvs as [|[k x] r IH]; intros s l; [reflexivity|].
  cbn [writeEach]. rewrite subW_writeKey.
  unfold subW. destruct (write call s k x l) as [[[e|a] c] l']; [reflexivity|].
  apply IH.
Qed.

Lemma each_array xs : forall n s l,
  (fix each (n : nat) (l : list value) (s : store) : W unit :=
     match l with
     | [] => doneW tt s
     | x :: r =>
         subW (writeKey (writeValue call x) (index_key n) s) (fun c => c)
              (fun _ c => each (S n) r c)
     end) n xs s l = writeEach call (indexed n xs) s l.
Proof.
  induction xs as [|x r IH]; intros n s l; [reflexivity|].
  cbn [writeEach indexed]. rewrite subW_writeKey.
  unfold subW.
  destruct (write call s (index_key n) x l) as [[[e|a] c] l']; [reflexivity|].
  apply IH.
Qed.

Lemma each_store props : forall s l,
  (fix each (l : list (string * (kind * value))) (s : store) : W unit :=
     match l with
     | [] => doneW tt s
     | (k, (_, x)) :: r =>
         subW (writeKey (writeValue call x) k s) (fun c => c)
              (fun _ c => each r c)
     end) props s l =
  writeEach call (map (fun p => (fst p, snd (snd p))) props) s l.
Proof.
  induction props as [|[k [kd x]] r IH]; intros s l; [reflexivity|].
  cbn [writeEach map fst snd]. rewrite subW_writeKey.
  unfold subW. destruct (write call s k x l) as [[[e|a] c] l']; [reflexivity|].
  apply IH.
Qed.

(** [write] to a single segment with an object, an array or a store:
    the slot receives a new store populated by [writeEntries]. *)
Lemma writeValue_single_object v first s l :
  isObject v = true ->
  writeValue call v [] first s l =
  match checkSegments call [] first s ["w"; "rw"] l with
  | (inl e, l1) => ((inl e, s), l1)
  | (inr false, l1) =>
      ((inl (PermissionDenied
               (String.append "Not allowed to write for path " (join [first]))),
        s), l1)
  | (inr true, l1) =>
      match getPermissionsForKey s first with
      | inl e => ((inl e, s), l1)
      | inr perms =>
          if String.eqb first "getDescriptor"
          then ((inl TypeError, define s first perms), l1)
          else
            match writeEntries call newStore v l1 with
            | ((inl e, _), l2) => ((inl e, define s first perms), l2)
            | ((inr _, nested), l2) =>
                ((inr (VStore nested),
                  setSlot (define s first perms) first (VStore nested)), l2)
            end
      end
  end.
Proof.
  intros Hv.
  destruct v as [| | | | |xs|kvs| | |[c h props]]; try discriminate Hv;
    cbn [writeValue isObject]; unfold stepW, failW, lift;
    (destruct (checkSegments call [] first s ["w"; "rw"] l) as [[e|[|]] l1];
     cbn [negb]; try reflexivity;
     destruct (getPermissionsForKey s first) as [e'|perms]; try reflexivity;
     destruct (String.eqb first "getDescriptor"); try reflexivity;
     unfold subW at 1).
  - rewrite each_array. unfold writeEntries. cbn [ownEntries].
    destruct (writeEach call (indexed 0 xs) newStore l1) as [[[e|a] n] l2];
      [reflexivity|].
    unfold doneW. now rewrite getDescriptor_setSlot.
  - rewrite each_object. unfold writeEntries. cbn [ownEntries].
    destruct (writeEach call kvs newStore l1) as [[[e|a] n] l2];
      [reflexivity|].
    unfold doneW. now rewrite getDescriptor_setSlot.
  - rewrite each_store. unfold writeEntries. cbn [ownEntries own].
    destruct (writeEach call _ newStore l1) as [[[e|a] n] l2];
      [reflexivity|].
    unfold doneW. now rewrite getDescriptor_setSlot.
Qed.

End Objects.




(** ** Enumerating a store *)

Lemma keys_upsert {A} (k k' : string) (a : A) (l : list (string * A)) :
  In k' (map fst (upsert k a l)) <-> k' = k \/ In k' (map fst l).
Proof.
  induction l as [|[k0 a0] r IH]; simpl.
  - intuition.
  - destruct (String.eqb k k0) eqn:E; simpl.
    + apply String.eqb_eq in E. subst. intuition.
    + rewrite IH. intuition.
Qed.

Lemma NoDup_upsert {A} (k : string) (a : A) (l : list (string * A)) :
  NoDup (map fst l) -> NoDup (map fst (upsert k a l)).
Proof.
  induction l as [|[k0 a0] r IH]; simpl; intros H.
  - constructor; [intros []|constructor].
  - destruct (String.eqb k k0) eqn:E; simpl.
    + apply String.eqb_eq in E. now subst.
    + inversion H as [|x y Hn Hr]. subst. constructor; [|now apply IH].
      rewrite keys_upsert. intros [->|HIn]; [|contradiction].
      now rewrite String.eqb_refl in E.
Qed.

Lemma NoDup_fold_upsert {A B} (f : B -> string) (g : B -> A) (l : list B)
    (acc : list (string * A)) :
  NoDup (map fst acc) ->
  NoDup (map fst (fold_left (fun acc x => upsert (f x) (g x) acc) l acc)).
Proof.
  revert acc. induction l as [|p r IH]; intros acc H; simpl; [assumption|].
  apply IH. now apply NoDup_upsert.
Qed.

Lemma assoc_In {A} (k : string) (a : A) (l : list (string * A)) :
  assoc k l = Some a -> In (k, a) l.
Proof.
  induction l as [|[k0 a0] r IH]; simpl; [discriminate|].
  destruct (String.eqb k k0) eqn:E.
  - apply String.eqb_eq in E. subst. intros H. inversion H. now left.
  - intros H. right. now apply IH.
Qed.

Lemma assoc_None {A} (k : string) (l : list (string * A)) :
  ~ In k (map fst l) -> assoc k l = None.
Proof.
  induction l as [|[k0 a0] r IH]; simpl; [reflexivity|].
  intros H. destruct (String.eqb k k0) eqn:E.
  - apply String.eqb_eq in E. subst. destruct H. now left.
  - apply IH. intros HIn. apply H. now right.
Qed.

Lemma In_assoc {A} (k : string) (a : A) (l : list (string * A)) :
  NoDup (map fst l) -> In (k, a) l -> assoc k l = Some a.
Proof.
  induction l as [|[k0 a0] r IH]; simpl; [intros _ []|].
  intros Hn [H|H].
  - inversion H. subst. now rewrite String.eqb_refl.
  - inversion Hn as [|x y Hx Hr]. subst.
    destruct (String.eqb k k0) eqn:E.
    + apply String.eqb_eq in E. subst. destruct Hx.
      change k0 with (fst (k0, a)). now apply in_map.
    + now apply IH.
Qed.

Section Enumeration.

Variable call : nat -> store -> error + value.

Lemma assoc_setResult_same {A} (key : string) (x : A) result :
  String.eqb key "__proto__" = false ->
  assoc key (setResult key x result) = Some x.
Proof. intros H. unfold setResult. rewrite H. apply assoc_upsert_same. Qed.

Lemma assoc_setResult_other {A} (key k : string) (x : A) result :
  String.eqb k key = false ->
  assoc k (setResult key x result) = assoc k result.
Proof.
  intros H. unfold setResult.
  destruct (String.eqb key "__proto__"); [reflexivity|].
  now apply assoc_upsert_other.
Qed.

Lemma assoc_setResult_proto {A} (key : string) (x : A) result :
  assoc "__proto__" (setResult key x result) = assoc "__proto__" result.
Proof.
  unfold setResult. destruct (String.eqb key "__proto__") eqn:E;
    [reflexivity|].
  apply assoc_upsert_other. now rewrite String.eqb_sym.
Qed.

Lemma entriesLoop_cons s nested key d r result l :
  entriesLoop call s nested ((key, d) :: r) result l =
  if isStore (descriptorValue d) then
    match nested key l with
    | (inl e, l1) => (inl e, l1)
    | (inr x, l1) => entriesLoop call s nested r (setResult key x result) l1
    end
  else
    match allowedToRead call s key l with
    | (inl e, l1) => (inl e, l1)
    | (inr true, l1) =>
        entriesLoop call s nested r
          (setResult key (descriptorValue d) result) l1
    | (inr false, l1) => entriesLoop call s nested r result l1
    end.
Proof.
  cbn [entriesLoop].
  destruct (descriptorValue d); unfold bind; cbn [isStore];
    first [ destruct (allowedToRead call s key l) as [[e|[|]] l1]; reflexivity
          | destruct (nested key l) as [[e|x] l1]; reflexivity ].
Qed.

Lemma entriesLoop_ext s f g :
  (forall k, f k = g k) ->
  forall ds result l,
    entriesLoop call s f ds result l = entriesLoop call s g ds result l.
Proof.
  intros E. induction ds as [|[key d] r IH]; intros result l; [reflexivity|].
  rewrite !entriesLoop_cons, E.
  destruct (isStore (descriptorValue d)).
  - destruct (g key l) as [[e|x] l1]; [reflexivity | apply IH].
  - destruct (allowedToRead call s key l) as [[e|[|]] l1];
      [reflexivity | apply IH | apply IH].
Qed.

(** What a successful run of the loop leaves in the result: keys outside
    the descriptors, and the name __proto__, are untouched; any other key
    holding a store gets the nested entries; any other key gets its raw
    value when readable and is left alone otherwise. *)
Lemma entriesLoop_spec s nested ds :
  forall result l res l',
    NoDup (map fst ds) ->
    entriesLoop call s nested ds result l = (inr (VObj res), l') ->
    (forall k, ~ In k (map fst ds) -> assoc k res = assoc k result) /\
    assoc "__proto__" res = assoc "__proto__" result /\
    (forall key d, In (key, d) ds ->
       String.eqb key "__proto__" = false ->
       if isStore (descriptorValue d)
       then exists x la lb,
              nested key la = (inr x, lb) /\ assoc key res = Some x
       else exists b la lb,
              allowedToRead call s key la = (inr b, lb) /\
              assoc key res =
                if b then Some (descriptorValue d) else assoc key result).
Proof.
  induction ds as [|[key0 d0] r IH]; intros result l res l' Hn H.
  - simpl in H. unfold ret in H. inversion H. subst.
    split; [reflexivity | split; [reflexivity | intros ? ? []]].
  - simpl in Hn. inversion Hn as [|x y Hx Hr]. subst.
    rewrite entriesLoop_cons in H.
    assert (Other : forall key d, In (key, d) r -> String.eqb key key0 = false).
    { intros key d Hd. destruct (String.eqb key key0) eqn:E; [|reflexivity].
      apply String.eqb_eq in E. subst. destruct Hx.
      change key0 with (fst (key0, d)). now apply in_map. }
    assert (Out : forall k, ~ In k (key0 :: map fst r) ->
                            String.eqb k key0 = false).
    { intros k Hk. destruct (String.eqb k key0) eqn:E; [|reflexivity].
      apply String.eqb_eq in E. subst. destruct Hk. now left. }
    destruct (isStore (descriptorValue d0)) eqn:St.
    + destruct (nested key0 l) as [[e|x] l1] eqn:N; [discriminate|].
      destruct (IH _ _ _ _ Hr H) as (Hout & Hproto & Hin).
      split; [|split].
      * intros k Hk. simpl in Hk.
        rewrite Hout by tauto. apply assoc_setResult_other. now apply Out.
      * rewrite Hproto. apply assoc_setResult_proto.
      * intros key d [Hd|Hd] Hp.
        -- inversion Hd. subst. rewrite St. exists x, l, l1.
           split; [assumption|].
           rewrite (Hout key Hx). now apply assoc_setResult_same.
        -- specialize (Hin key d Hd Hp).
           destruct (isStore (descriptorValue d)); [exact Hin|].
           destruct Hin as (b & la & lb & Ha & Hres).
           exists b, la, lb. split; [exact Ha|].
           rewrite Hres. destruct b; [reflexivity|].
           apply assoc_setResult_other. now apply (Other key d).
    + destruct (allowedToRead call s key0 l) as [[e|[|]] l1] eqn:A;
        [discriminate| |].
      * destruct (IH _ _ _ _ Hr H) as (Hout & Hproto & Hin).
        split; [|split].
        -- intros k Hk. simpl in Hk.
           rewrite Hout by tauto. apply assoc_setResult_other. now apply Out.
        -- rewrite Hproto. apply assoc_setResult_proto.
        -- intros key d [Hd|Hd] Hp.
           ++ inversion Hd. subst. rewrite St. exists true, l, l1.
              split; [assumption|].
              rewrite (Hout key Hx). now apply assoc_setResult_same.
           ++ specialize (Hin key d Hd Hp).
              destruct (isStore (descriptorValue d)); [exact Hin|].
              destruct Hin as (b & la & lb & Ha & Hres).
              exists b, la, lb. split; [exact Ha|].
              rewrite Hres. destruct b; [reflexivity|].
              apply assoc_setResult_other. now apply (Other key d).
      * destruct (IH _ _ _ _ Hr H) as (Hout & Hproto & Hin).
        split; [|split].
        -- intros k Hk. simpl in Hk. apply Hout. tauto.
        -- exact Hproto.
        -- intros key d [Hd|Hd] Hp.
           ++ inversion Hd. subst. rewrite St. exists false, l, l1.
              split; [exact A | now apply Hout].
           ++ exact (Hin key d Hd Hp).
Qed.

Lemma table_own ow k :
  assoc k
    ((fix tab (l : list (string * (kind * value))) : list (string * M value) :=
        match l with
        | [] => []
        | (k, (_, v)) :: r =>
            (k, match v with
                | VStore c => entries call c
                | _ => ret VUndefined
                end) :: tab r
        end) ow) =
  match assoc k ow with
  | Some (_, v) => Some (entriesOf (entries call) v)
  | None => None
  end.
Proof.
  induction ow as [|[k0 [kd v]] r IH]; [reflexivity|].
  cbn [assoc]. destruct (String.eqb k k0); [|exact IH].
  destruct v; reflexivity.
Qed.

Lemma table_hidden hid k :
  assoc k
    ((fix tab (l : list (string * value)) : list (string * M value) :=
        match l with
        | [] => []
        | (k, v) :: r =>
            (k, match v with
                | VStore c => entries call c
                | _ => ret VUndefined
                end) :: tab r
        end) hid) =
  match assoc k hid with
  | Some v => Some (entriesOf (entries call) v)
  | None => None
  end.
Proof.
  induction hid as [|[k0 v] r IH]; [reflexivity|].
  cbn [assoc]. destruct (String.eqb k k0); [|exact IH].
  destruct v; reflexivity.
Qed.

(** The recursion equation of [entries]. *)
Lemma entries_unfold s l :
  entries call s l =
  if shadowed s then (inl Unsupported, l)
  else entriesLoop call s (nestedOf call s) (getAllDescriptors s) [] l.
Proof.
  destruct s as [ch hid ow]. cbn [entries].
  destruct (shadowed (mkStore ch hid ow)); [reflexivity|].
  apply entriesLoop_ext. intros k. unfold nestedOf. cbn [own hidden].
  rewrite table_own, table_hidden.
  destruct (assoc k ow) as [[kd v]|]; [reflexivity|].
  destruct (assoc k hid); reflexivity.
Qed.

End Enumeration.

(** ** The descriptors [entries] enumerates *)

Lemma assoc_overlay {A} (k : string) (l : list (string * A)) :
  forall acc,
    NoDup (map fst l) ->
    assoc k (fold_left (fun acc p => upsert (fst p) (snd p) acc) l acc) =
    match assoc k l with
    | Some d => Some d
    | None => assoc k acc
    end.
Proof.
  induction l as [|[k0 d0] r IH]; intros acc Hn; [reflexivity|].
  simpl in Hn. inversion Hn as [|x y Hx Hr]. subst.
  cbn [fold_left fst snd assoc]. rewrite IH by assumption.
  destruct (String.eqb k k0) eqn:E.
  - apply String.eqb_eq in E. subst.
    rewrite (assoc_None _ _ Hx). apply assoc_upsert_same.
  - destruct (assoc k r); [reflexivity|]. now apply assoc_upsert_other.
Qed.

Lemma NoDup_storeMembers : NoDup storeMembers.
Proof.
  unfold storeMembers.
  repeat (constructor;
          [simpl; intros H;
           repeat (destruct H as [H|H]; [discriminate H|]); exact H|]).
  constructor.
Qed.

Lemma NoDup_prototypeDescriptors s : NoDup (map fst (prototypeDescriptors s)).
Proof.
  unfold prototypeDescriptors. destruct (chain s) as [|sh r].
  - rewrite map_map. cbn [fst]. rewrite map_id. apply NoDup_storeMembers.
  - unfold shapeDescriptors. apply NoDup_fold_upsert.
    destruct (sh_perms sh); simpl;
      repeat (constructor;
              [simpl; intros H;
               repeat (destruct H as [H|H]; [discriminate H|]); exact H|]);
      constructor.
Qed.

Lemma NoDup_getAllDescriptors s : NoDup (map fst (getAllDescriptors s)).
Proof.
  unfold getAllDescriptors. apply NoDup_fold_upsert.
  apply NoDup_prototypeDescriptors.
Qed.


Section EntriesSpec.

Variable call : nat -> store -> error + value.

Lemma getAllDescriptors_lookup s key :
  distinctOwn s ->
  assoc key (getAllDescriptors s) =
  match assoc key (own s) with
  | Some d => Some d
  | None => assoc key (prototypeDescriptors s)
  end.
Proof. intros H. unfold getAllDescriptors. now apply assoc_overlay. Qed.



(** A successful [entries] ran its loop over all the descriptors of an
    instance none of whose members is shadowed. *)
Lemma entries_loop_result s l res l' :
  entries call s l = (inr (VObj res), l') ->
  shadowed s = false /\
  assoc "__proto__" res = None /\
  forall key d, In (key, d) (getAllDescriptors s) ->
    String.eqb key "__proto__" = false ->
    if isStore (descriptorValue d)
    then exists x la lb,
           nestedOf call s key la = (inr x, lb) /\ assoc key res = Some x
    else exists b la lb,
           allowedToRead call s key la = (inr b, lb) /\
           assoc key res = if b then Some (descriptorValue d) else None.
Proof.
  intros He. rewrite entries_unfold in He.
  destruct (shadowed s); [discriminate|].
  split; [reflexivity|].
  exact (proj2 (@entriesLoop_spec call s (nestedOf call s)
                  (getAllDescriptors s) [] l res l'
                  (NoDup_getAllDescriptors s) He)).
Qed.

(** *** [entries] and the log of invocations *)









End EntriesSpec.

Ltac distinct_keys :=
  vm_compute;
  repeat (constructor;
          [simpl; intros H;
           repeat (destruct H as [H|H]; [discriminate H|]); exact H|]);
  constructor.




Section EntriesMembers.

Variable call : nat -> store -> error + value.

Lemma allowedToRead_single_same s key la lb b l :
  split key = [key] ->
  allowedToRead call s key la = (inr b, lb) ->
  allowedToRead call s key l = (inr true, l) ->
  b = true.
Proof.
  intros Hk Ha Hl.
  rewrite allowedToRead_single, checkSegments_single in Ha, Hl by assumption.
  destruct (shadowed s); [discriminate|].
  destruct (getPermissionsForKey s key); [discriminate|].
  inversion Ha. inversion Hl. congruence.
Qed.

Lemma member_single key : In key storeMembers -> split key = [key].
Proof.
  unfold storeMembers. simpl. intros H.
  repeat (destruct H as [H|H]; [subst; reflexivity|]). destruct H.
Qed.

Lemma mem_In k l : In k l -> mem k l = true.
Proof.
  intros H. unfold mem. apply existsb_exists. exists k.
  split; [assumption | apply String.eqb_refl].
Qed.

Lemma not_shadowed_member s key :
  shadowed s = false -> In key storeMembers ->
  ~ In key (map fst (own s)) /\ ~ In key (flat_map sh_accessors (chain s)).
Proof.
  intros Hs Hk.
  assert (N : ~ In key (map fst (own s) ++ flat_map sh_accessors (chain s))).
  { intros HIn. unfold shadowed in Hs.
    assert (T : existsb (fun k => mem k storeMembers)
                  (map fst (own s) ++ flat_map sh_accessors (chain s)) = true).
    { apply existsb_exists. exists key. split; [assumption | now apply mem_In]. }
    rewrite T in Hs. discriminate. }
  split; intros HIn; apply N; apply in_or_app; [now left | now right].
Qed.

Lemma assoc_fold_upsert_other {A} (k : string) (g : string -> A)
    (l : list string) :
  ~ In k l ->
  forall acc,
    assoc k (fold_left (fun acc x => upsert x (g x) acc) l acc) = assoc k acc.
Proof.
  induction l as [|k0 r IH]; intros Hn acc; [reflexivity|].
  cbn [fold_left]. rewrite IH by (intros H; apply Hn; now right).
  apply assoc_upsert_other.
  destruct (String.eqb k k0) eqn:E; [|reflexivity].
  apply String.eqb_eq in E. subst. destruct Hn. now left.
Qed.

Lemma assoc_members key :
  In key storeMembers ->
  assoc key (map (fun k => (k, (Data, VMember k))) storeMembers)
    = Some (Data, VMember key).
Proof.
  unfold storeMembers. simpl. intros H.
  repeat (destruct H as [H|H]; [subst; reflexivity|]). destruct H.
Qed.

(** The descriptor [entries] finds for a member function that no slot
    shadows: on a direct instance every member, on an instance of a
    decorated subclass its constructor. *)
Lemma member_descriptor s key :
  distinctOwn s ->
  shadowed s = false ->
  In key storeMembers ->
  chain s = [] \/ key = "constructor" ->
  assoc key (getAllDescriptors s) = Some (Data, VMember key).
Proof.
  intros Hn Hs Hk Hc.
  destruct (@not_shadowed_member s key Hs Hk) as [Ho Ha].
  rewrite getAllDescriptors_lookup by assumption.
  rewrite (assoc_None _ _ Ho).
  unfold prototypeDescriptors.
  destruct (chain s) as [|sh r] eqn:C.
  - now apply assoc_members.
  - destruct Hc as [Hc|Hc]; [discriminate|]. subst key.
    unfold shapeDescriptors.
    rewrite assoc_fold_upsert_other with
      (g := fun k => (Accessor, hidden_content (hidden s) k)).
    + reflexivity.
    + intros HIn. apply Ha. simpl. apply in_or_app. now left.
Qed.

(** C10: where the policy permits the reads, the object returned by
    [entries] holds the two fields of the instance and the member
    functions of its class as values; so on a new store it is not the
    empty object. *)
Theorem entries_includes_fields_and_members :
  (forall s l res l',
      distinctOwn s ->
      entries call s l = (inr (VObj res), l') ->
      (forall key d,
          In key ["defaultPolicy"; "permissionsByKey"] ->
          assoc key (own s) = Some d ->
          allowedToRead call s key l = (inr true, l) ->
          assoc key res <> None) /\
      (forall key,
          In key storeMembers ->
          chain s = [] \/ key = "constructor" ->
          allowedToRead call s key l = (inr true, l) ->
          assoc key res = Some (VMember key))) /\
  (exists res,
      entries call newStore [] = (inr (VObj res), []) /\
      res <> [] /\
      assoc "defaultPolicy" res = Some (VStr "rw") /\
      assoc "permissionsByKey" res = Some (VObj []) /\
      forall key, In key storeMembers -> assoc key res = Some (VMember key)).
Proof.
  split.
  - intros s l res l' Hn He.
    destruct (@entries_loop_result call s l res l' He) as (Hs & _ & Hin).
    split.
    + intros key d Hk Ho Ha.
      assert (Hsplit : split key = [key] /\ String.eqb key "__proto__" = false).
      { simpl in Hk. destruct Hk as [<-|[<-|[]]]; split; reflexivity. }
      destruct Hsplit as [Hsplit Hp].
      assert (Hd : assoc key (getAllDescriptors s) = Some d).
      { rewrite getAllDescriptors_lookup by assumption. now rewrite Ho. }
      specialize (Hin key d (@assoc_In _ key d _ Hd) Hp).
      destruct (isStore (descriptorValue d)).
      * destruct Hin as (x & _ & _ & _ & Hx). rewrite Hx. discriminate.
      * destruct Hin as (b & la & lb & Hb & Hr).
        rewrite (@allowedToRead_single_same s key la lb b l Hsplit Hb Ha) in Hr.
        rewrite Hr. discriminate.
    + intros key Hk Hc Ha.
      pose proof (@member_descriptor s key Hn Hs Hk Hc) as Hd.
      assert (Hp : String.eqb key "__proto__" = false).
      { unfold storeMembers in Hk. simpl in Hk.
        repeat (destruct Hk as [Hk|Hk]; [subst; reflexivity|]). destruct Hk. }
      specialize (Hin key _ (@assoc_In _ key _ _ Hd) Hp).
      cbn [descriptorValue isStore] in Hin.
      destruct Hin as (b & la & lb & Hb & Hr).
      rewrite (@allowedToRead_single_same s key la lb b l
                 (@member_single key Hk) Hb Ha) in Hr.
      exact Hr.
  - eexists. split; [vm_compute; reflexivity|].
    split; [discriminate|].
    split; [reflexivity|]. split; [reflexivity|].
    unfold storeMembers. simpl. intros key H.
    repeat (destruct H as [H|H]; [subst; reflexivity|]). destruct H.
Qed.

End EntriesMembers.

Lemma entries_includes_fields_and_members_witness :
  assoc "read" counterEntries = Some (VMember "read").
Proof.
  apply (proj2 (proj1 (@entries_includes_fields_and_members sampleCall)
                  counterStore [] counterEntries []
                  ltac:(distinct_keys) eq_refl) "read");
    [simpl; tauto | left; reflexivity | reflexivity].
Defined.

(** ** Paths of several segments *)

Section Paths.

Variable call : nat -> store -> error + value.

(** [write] along a path of several segments.  [define] has just given
    the first segment a new accessor, whose content reads [undefined]:
    the branch that descends into an existing store is never taken, and
    the slot always receives a new store. *)
Lemma writeValue_multi v next rest first s l :
  writeValue call v (next :: rest) first s l =
  match checkSegments call (next :: rest) first s ["w"; "rw"] l with
  | (inl e, l1) => ((inl e, s), l1)
  | (inr false, l1) =>
      ((inl (PermissionDenied
               (String.append "Not allowed to write for path "
                              (join (first :: next :: rest)))), s), l1)
  | (inr true, l1) =>
      match getPermissionsForKey s first with
      | inl e => ((inl e, s), l1)
      | inr perms =>
          if String.eqb first "getDescriptor"
          then ((inl TypeError, define s first perms), l1)
          else
            match writeValue call v rest next newStore l1 with
            | ((inl e, c), l2) =>
                ((inl e, setSlot (define s first perms) first (VStore c)), l2)
            | ((inr _, c), l2) =>
                ((inr (VStore c),
                  setSlot (define s first perms) first (VStore c)), l2)
            end
      end
  end.
Proof.
  destruct v as [| | | | | | | | |[c h o]];
    cbn [writeValue]; unfold stepW, failW, lift;
    (destruct (checkSegments call (next :: rest) first s ["w"; "rw"] l)
       as [[e|[|]] l1]; cbn [negb]; try reflexivity;
     destruct (getPermissionsForKey s first) as [e'|perms]; try reflexivity;
     destruct (String.eqb first "getDescriptor"); try reflexivity;
     rewrite getDescriptor_define; cbn [descriptor_get resolveValue];
     unfold ret, subW, doneW; reflexivity).
Qed.

End Paths.











(** ** Recorded permissions across writes *)

Section Recorded.

Variable call : nat -> store -> error + value.

(** The instance a call of [write] leaves behind is the one it found,
    or that one after [define], or after [define] and a [set]. *)
Lemma afterWrite_cases v rest first s l :
  afterWrite (writeValue call v rest first s l) = s \/
  exists perms,
    getPermissionsForKey s first = inr perms /\
    (afterWrite (writeValue call v rest first s l) = define s first perms \/
     exists x,
       afterWrite (writeValue call v rest first s l)
         = setSlot (define s first perms) first x).
Proof.
  unfold afterWrite.
  destruct rest as [|next rest].
  - destruct (isObject v) eqn:O.
    + rewrite writeValue_single_object by assumption.
      destruct (checkSegments call [] first s ["w"; "rw"] l) as [[e|[|]] l1];
        try (now left).
      destruct (getPermissionsForKey s first) as [e|perms]; [now left|].
      right. exists perms. split; [reflexivity|].
      destruct (String.eqb first "getDescriptor"); [now left|].
      destruct (writeEntries call newStore v l1) as [[[e|a] n] l2];
        [now left | right; eexists; reflexivity].
    + rewrite writeValue_single_leaf by assumption.
      destruct (checkSegments call [] first s ["w"; "rw"] l) as [[e|[|]] l1];
        try (now left).
      destruct (getPermissionsForKey s first) as [e|perms]; [now left|].
      right. exists perms. split; [reflexivity|].
      destruct (String.eqb first "getDescriptor");
        [now left | right; eexists; reflexivity].
  - rewrite writeValue_multi.
    destruct (checkSegments call (next :: rest) first s ["w"; "rw"] l)
      as [[e|[|]] l1]; try (now left).
    destruct (getPermissionsForKey s first) as [e|perms]; [now left|].
    right. exists perms. split; [reflexivity|].
    destruct (String.eqb first "getDescriptor"); [now left|].
    destruct (writeValue call v rest next newStore l1) as [[[e|a] c] l2];
      right; eexists; reflexivity.
Qed.

Lemma getProp_table_define s first perms kd tbl :
  assoc "permissionsByKey" (own s) = Some (kd, VObj tbl) ->
  String.eqb "permissionsByKey" first = false ->
  getProp (define s first perms) "permissionsByKey"
    = VObj (upsert first (VArr perms) tbl).
Proof.
  intros Ho Hf.
  assert (G : getProp s "permissionsByKey" = VObj tbl).
  { unfold getProp, getDescriptor. now rewrite Ho. }
  unfold define. rewrite G. cbn [truthy ownEntries].
  unfold assign. rewrite Ho.
  unfold getProp, getDescriptor. cbn [own chain hidden].
  rewrite assoc_upsert_other by assumption.
  now rewrite assoc_upsert_same.
Qed.

Lemma getPermissionsForKey_define s first perms kd tbl k :
  assoc "permissionsByKey" (own s) = Some (kd, VObj tbl) ->
  String.eqb "permissionsByKey" first = false ->
  getPermissionsForKey s first = inr perms ->
  getPermissionsForKey (define s first perms) k = getPermissionsForKey s k.
Proof.
  intros Ho Hf Hp.
  assert (G : getProp s "permissionsByKey" = VObj tbl).
  { unfold getProp, getDescriptor. now rewrite Ho. }
  assert (C : chain (define s first perms) = chain s).
  { unfold define, assign. rewrite Ho. reflexivity. }
  unfold getPermissionsForKey in *.
  rewrite (@getProp_table_define s first perms kd tbl Ho Hf), C. rewrite G in *.
  cbn [index ownEntries] in *.
  destruct (String.eqb k first) eqn:E.
  - apply String.eqb_eq in E. subst k. rewrite assoc_upsert_same.
    symmetry. exact Hp.
  - now rewrite assoc_upsert_other.
Qed.

Lemma getPermissionsForKey_setSlot s first x k :
  String.eqb "permissionsByKey" first = false ->
  getPermissionsForKey (setSlot s first x) k = getPermissionsForKey s k.
Proof.
  intros Hf. unfold getPermissionsForKey, getProp, getDescriptor, setSlot.
  cbn [own chain hidden]. now rewrite assoc_upsert_other.
Qed.

(** Apart from writes whose first segment is permissionsByKey, a write
    (successful or not) leaves the permission list resolved for every
    key as it was, on an instance whose permission table is an object. *)
Lemma write_preserves_permissions v rest first s l kd tbl k :
  assoc "permissionsByKey" (own s) = Some (kd, VObj tbl) ->
  String.eqb "permissionsByKey" first = false ->
  getPermissionsForKey (afterWrite (writeValue call v rest first s l)) k
    = getPermissionsForKey s k.
Proof.
  intros Ho Hf.
  destruct (afterWrite_cases v rest first s l)
    as [E|(perms & Hp & [E|(x & E)])]; rewrite E.
  - reflexivity.
  - now apply getPermissionsForKey_define with (kd := kd) (tbl := tbl).
  - rewrite getPermissionsForKey_setSlot by assumption.
    now apply getPermissionsForKey_define with (kd := kd) (tbl := tbl).
Qed.

End Recorded.

(** C8: the code breaks the invariant at the key permissionsByKey.  On a
    store where x was written (its list, the empty one, is recorded and x
    is readable), the write of null to permissionsByKey succeeds and
    replaces the permission table; resolving the permissions of x then
    throws. *)
Theorem write_to_permissions_table_breaks_resolution :
  let s1 := afterWrite (write sampleCall newStore "x" (VNum 1) []) in
  let r := write sampleCall s1 "permissionsByKey" VNull [] in
  getPermissionsForKey s1 "x" = inr [] /\
  allowedToRead sampleCall s1 "x" [] = (inr true, []) /\
  fst (fst r) = inr VNull /\
  getPermissionsForKey (afterWrite r) "x" = inl TypeError /\
  allowedToRead sampleCall (afterWrite r) "x" [] = (inl TypeError, []).
Proof. cbv zeta. repeat split; vm_compute; reflexivity. Qed.

(** * Further properties of the code *)

(** ** Paths: what the recursive calls receive *)

Lemma split_cons_colon (r : string) :
  split (String ":"%char r) = EmptyString :: split r.
Proof. reflexivity. Qed.

Lemma split_single_prepend (k rest : string) :
  split k = [k] ->
  split (String.append k (String ":"%char rest)) = k :: split rest.
Proof.
  revert rest. induction k as [|c k IH]; intros rest H; [reflexivity|].
  cbn [String.append]. cbn [split] in *.
  destruct (Ascii.eqb c ":"%char); [discriminate H|].
  destruct (split k) as [|h t] eqn:S.
  - now destruct (split_not_nil k).
  - inversion H. subst h t.
    now rewrite IH by reflexivity.
Qed.

Lemma split_segments_single (s : string) :
  Forall (fun k => split k = [k]) (split s).
Proof.
  induction s as [|c r IH]; cbn [split].
  - constructor; [reflexivity | constructor].
  - destruct (Ascii.eqb c ":"%char) eqn:E.
    + constructor; [reflexivity | exact IH].
    + destruct (split r) as [|h t] eqn:S; [now destruct (split_not_nil r)|].
      inversion IH as [|x y Hh Ht]. subst.
      constructor; [|exact Ht].
      cbn [split]. now rewrite E, Hh.
Qed.

Lemma join_cons (k k' : string) (l : list string) :
  join (k :: k' :: l) = String.append k (String ":"%char (join (k' :: l))).
Proof. reflexivity. Qed.

Lemma split_join_single (l : list string) :
  l <> [] ->
  Forall (fun k => split k = [k]) l ->
  split (join l) = l.
Proof.
  induction l as [|k l IH]; intros Hn Hf; [now destruct Hn|].
  inversion Hf as [|x y Hk Hl]. subst.
  destruct l as [|k' l'].
  - exact Hk.
  - rewrite join_cons, split_single_prepend by assumption.
    f_equal. apply IH; [discriminate | assumption].
Qed.

(** X1: joining the segments of a path gives the path back, and the
    string a recursive call receives, the joined tail of the segments,
    splits into exactly that tail. *)
Theorem path_split_join_roundtrip (path first next : string)
    (rest : list string) :
  split path = first :: next :: rest ->
  join (split path) = path /\
  split (join (next :: rest)) = next :: rest /\
  split first = [first].
Proof.
  intros H. pose proof (split_segments_single path) as F. rewrite H in F.
  inversion F as [|x y Hf Ht]. subst.
  split; [apply join_split|]. split; [|exact Hf].
  apply split_join_single; [discriminate | exact Ht].
Qed.

Lemma path_split_join_roundtrip_witness :
  join (split "a:b:c") = "a:b:c" /\
  split (join ["b"; "c"]) = ["b"; "c"] /\
  split "a" = ["a"].
Proof.
  apply (@path_split_join_roundtrip "a:b:c" "a" "b" ["c"]). reflexivity.
Defined.

(** ** Descending into nested stores *)

Section Descent.

Variable call : nat -> store -> error + value.

Lemma checkHasPermissionForKey_segments s key first rest permissions l :
  split key = first :: rest ->
  checkHasPermissionForKey call s key permissions l =
  checkSegments call rest first s permissions l.
Proof. intros H. unfold checkHasPermissionForKey. now rewrite H. Qed.

Lemma checkHasPermissionForKey_tail child next rest permissions l :
  Forall (fun k => split k = [k]) (next :: rest) ->
  checkHasPermissionForKey call child (join (next :: rest)) permissions l =
  checkSegments call rest next child permissions l.
Proof.
  intros F. apply checkHasPermissionForKey_segments.
  apply split_join_single; [discriminate | assumption].
Qed.

Lemma tail_single path first next rest :
  split path = first :: next :: rest ->
  Forall (fun k => split k = [k]) (next :: rest).
Proof.
  intros H. pose proof (split_segments_single path) as F. rewrite H in F.
  now inversion F.
Qed.

(** X2: when the first segment of a key resolves to a nested store,
    the permission check is the nested store's check of the rest of the
    key: the policy and the permission lists of the outer store play no
    part. *)
Theorem permission_check_is_delegated s key first next rest child l l1 :
  split key = first :: next :: rest ->
  shadowed s = false ->
  getValueForKey call s first l = (inr (VStore child), l1) ->
  allowedToRead call s key l
    = allowedToRead call child (join (next :: rest)) l1 /\
  allowedToWrite call s key l
    = allowedToWrite call child (join (next :: rest)) l1.
Proof.
  intros Hk Hs Hv.
  pose proof (@tail_single key first next rest Hk) as F.
  unfold allowedToRead, allowedToWrite.
  rewrite !checkHasPermissionForKey_tail by assumption.
  rewrite !checkHasPermissionForKey_segments
    with (first := first) (rest := next :: rest) by assumption.
  cbn [checkSegments]. rewrite Hs. unfold bind. rewrite Hv.
  split; reflexivity.
Qed.

(** X3: a permitted read along a path whose first segment resolves to
    a nested store is the read of the rest of the path on that store. *)
Theorem read_descends_into_nested_store s path first next rest child l l1 l2 :
  split path = first :: next :: rest ->
  allowedToRead call s path l = (inr true, l1) ->
  resolveValue call (descriptor_get (getDescriptor s first)) s l1
    = (inr (VStore child), l2) ->
  read call s path l = read call child (join (next :: rest)) l2.
Proof.
  intros Hk Ha Hv.
  pose proof (@tail_single path first next rest Hk) as F.
  unfold read at 2.
  rewrite (split_join_single (l := next :: rest)) by (discriminate || assumption).
  unfold read. rewrite Hk. cbn [readSegments].
  unfold allowedToRead in Ha.
  rewrite checkHasPermissionForKey_segments
    with (first := first) (rest := next :: rest) in Ha by assumption.
  unfold bind at 1. rewrite Ha. cbn [negb].
  unfold bind at 1. rewrite Hv. reflexivity.
Qed.

End Descent.

Lemma permission_check_is_delegated_witness :
  allowedToRead sampleCall nonePolicyStore "a:b" []
    = allowedToRead sampleCall
        (afterWrite (write sampleCall newStore "b" (VNum 1) [])) "b" [] /\
  allowedToWrite sampleCall nonePolicyStore "a:b" []
    = allowedToWrite sampleCall
        (afterWrite (write sampleCall newStore "b" (VNum 1) [])) "b" [].
Proof.
  apply (@permission_check_is_delegated sampleCall nonePolicyStore "a:b"
           "a" "b" [] _ [] []); reflexivity.
Defined.

Lemma read_descends_into_nested_store_witness :
  read sampleCall nonePolicyStore "a:b" []
    = read sampleCall
        (afterWrite (write sampleCall newStore "b" (VNum 1) [])) "b" [].
Proof.
  apply (@read_descends_into_nested_store sampleCall nonePolicyStore "a:b"
           "a" "b" [] _ [] [] []); reflexivity.
Defined.

(** ** How a permission is decided on the instance *)

Section Deciding.

Variable call : nat -> store -> error + value.

Lemma includes_two (a b : Permission) (x : value) :
  includes [a; b] x = true <-> x = VStr a \/ x = VStr b.
Proof.
  destruct x; simpl; try (split; [discriminate | intros [H|H]; discriminate H]).
  rewrite !orb_true_iff, !String.eqb_eq. split.
  - intros [->|[->|H]]; [now left | now right | discriminate H].
  - intros [H|H]; inversion H; auto.
Qed.

Lemma existsb_includes_two (a b : Permission) (ps : list value) :
  existsb (includes [a; b]) ps = true <-> In (VStr a) ps \/ In (VStr b) ps.
Proof.
  rewrite existsb_exists. split.
  - intros (x & Hx & Hi). apply includes_two in Hi.
    destruct Hi as [->| ->]; [now left | now right].
  - intros [H|H]; eexists; (split; [exact H|]); apply includes_two;
      [now left | now right].
Qed.

Lemma decision_default s key permissions ps :
  mem "none" permissions = false ->
  hasKey s key && negb (Nat.eqb (length ps) 0) = false ->
  decision s key permissions ps
    = includes permissions (getProp s "defaultPolicy").
Proof.
  intros Hn G. unfold decision. rewrite G.
  destruct (getProp s "defaultPolicy") as [| | | |p| | | | |]; try reflexivity.
  destruct p as [|[[] [] [] [] [] [] [] []] p1]; try reflexivity.
  destruct p1 as [|[[] [] [] [] [] [] [] []] p2]; try reflexivity.
  destruct p2 as [|[[] [] [] [] [] [] [] []] p3]; try reflexivity.
  destruct p3 as [|[[] [] [] [] [] [] [] []] p4]; try reflexivity.
  destruct p4; try reflexivity.
  cbn [includes]. symmetry. exact Hn.
Qed.

Lemma check_local_decision s key first rest permissions l l1 :
  shadowed s = false ->
  split key = first :: rest ->
  headIsNoStore call s first rest l l1 ->
  checkHasPermissionForKey call s key permissions l =
  match getPermissionsForKey s key with
  | inl e => (inl e, l1)
  | inr kp => (inr (decision s key permissions kp), l1)
  end.
Proof.
  intros Hs Hk Hh.
  assert (Hj : join (first :: rest) = key) by (rewrite <- Hk; apply join_split).
  unfold checkHasPermissionForKey. rewrite Hk.
  rewrite checkSegments_local with (l1 := l1) by assumption.
  now rewrite localPermission_run, Hj.
Qed.

(** X4: for a key that exists on the store and has a non-empty
    permission list, the list alone decides: the key is readable exactly
    when the list holds r or rw and writable exactly when it holds w or
    rw, whatever the default policy. *)
Theorem key_permissions_override_policy s key first rest ps l l1 :
  shadowed s = false ->
  split key = first :: rest ->
  headIsNoStore call s first rest l l1 ->
  hasKey s key = true ->
  getPermissionsForKey s key = inr ps ->
  ps <> [] ->
  exists br bw,
    allowedToRead call s key l = (inr br, l1) /\
    allowedToWrite call s key l = (inr bw, l1) /\
    (br = true <-> In (VStr "r") ps \/ In (VStr "rw") ps) /\
    (bw = true <-> In (VStr "w") ps \/ In (VStr "rw") ps).
Proof.
  intros Hs Hk Hh Hkey Hp Hne.
  assert (D : forall permissions,
             decision s key permissions ps = existsb (includes permissions) ps).
  { intros permissions. unfold decision. rewrite Hkey.
    destruct ps; [now destruct Hne | reflexivity]. }
  exists (existsb (includes ["r"; "rw"]) ps), (existsb (includes ["w"; "rw"]) ps).
  unfold allowedToRead, allowedToWrite.
  rewrite !check_local_decision
    with (first := first) (rest := rest) (l1 := l1) by assumption.
  rewrite Hp, !D.
  repeat split; try apply existsb_includes_two.
Qed.

(** X5: for a key that does not exist on the store, or whose permission
    list is empty, the default policy decides: readable exactly when the
    policy is r or rw, writable exactly when it is w or rw; any other
    policy value denies both. *)
Theorem default_policy_decides s key first rest ps l l1 :
  shadowed s = false ->
  split key = first :: rest ->
  headIsNoStore call s first rest l l1 ->
  getPermissionsForKey s key = inr ps ->
  hasKey s key = false \/ ps = [] ->
  exists br bw,
    allowedToRead call s key l = (inr br, l1) /\
    allowedToWrite call s key l = (inr bw, l1) /\
    (br = true <-> getProp s "defaultPolicy" = VStr "r" \/
                   getProp s "defaultPolicy" = VStr "rw") /\
    (bw = true <-> getProp s "defaultPolicy" = VStr "w" \/
                   getProp s "defaultPolicy" = VStr "rw").
Proof.
  intros Hs Hk Hh Hp Hno.
  assert (D : forall permissions,
             mem "none" permissions = false ->
             decision s key permissions ps
               = includes permissions (getProp s "defaultPolicy")).
  { intros permissions Hn. apply decision_default; [assumption|].
    destruct Hno as [H|H]; [now rewrite H|].
    subst ps. apply andb_false_r. }
  exists (includes ["r"; "rw"] (getProp s "defaultPolicy")),
         (includes ["w"; "rw"] (getProp s "defaultPolicy")).
  unfold allowedToRead, allowedToWrite.
  rewrite !check_local_decision
    with (first := first) (rest := rest) (l1 := l1) by assumption.
  rewrite Hp, !D by reflexivity.
  repeat split; try apply includes_two.
Qed.

End Deciding.

Lemma key_permissions_override_policy_witness :
  exists br bw,
    allowedToRead sampleCall vault "secret" [] = (inr br, []) /\
    allowedToWrite sampleCall vault "secret" [] = (inr bw, []) /\
    (br = true <-> In (VStr "r") [VStr "w"] \/ In (VStr "rw") [VStr "w"]) /\
    (bw = true <-> In (VStr "w") [VStr "w"] \/ In (VStr "rw") [VStr "w"]).
Proof.
  apply (@key_permissions_override_policy sampleCall vault "secret" "secret"
           [] [VStr "w"] [] []); try reflexivity.
  discriminate.
Defined.

Lemma default_policy_decides_witness :
  exists br bw,
    allowedToRead sampleCall vault "other" [] = (inr br, []) /\
    allowedToWrite sampleCall vault "other" [] = (inr bw, []) /\
    (br = true <-> getProp vault "defaultPolicy" = VStr "r" \/
                   getProp vault "defaultPolicy" = VStr "rw") /\
    (bw = true <-> getProp vault "defaultPolicy" = VStr "w" \/
                   getProp vault "defaultPolicy" = VStr "rw").
Proof.
  apply (@default_policy_decides sampleCall vault "other" "other" [] [] [] []);
    try reflexivity.
  now left.
Defined.

(** ** Errors and edge cases of [read] and [write] *)

Section Edges.

Variable call : nat -> store -> error + value.

(** X6: a permitted read of a single-segment key that has no accessor,
    because the key is unknown or names a plain field or a member
    function, returns undefined. *)
Theorem read_without_accessor_is_undefined s key l :
  split key = [key] ->
  allowedToRead call s key l = (inr true, l) ->
  getDescriptor s key = None \/ (exists v, getDescriptor s key = Some (Data, v)) ->
  read call s key l = (inr VUndefined, l).
Proof.
  intros Hk Ha Hd.
  rewrite allowedToRead_single in Ha by assumption.
  rewrite read_single by assumption.
  rewrite readSegments_single, Ha.
  destruct Hd as [Hd|(v & Hd)]; rewrite Hd; reflexivity.
Qed.

Lemma readSegments_denied rest first s l l1 :
  checkSegments call rest first s ["r"; "rw"] l = (inr false, l1) ->
  readSegments call rest first s l =
  (inl (PermissionDenied
          (String.append "Not allowed to read for path "
                         (join (first :: rest)))), l1).
Proof.
  intros H. destruct rest; cbn [readSegments]; unfold bind; rewrite H;
    reflexivity.
Qed.

(** X7: a refused access throws PermissionDenied with a message naming
    the whole path; a refused write leaves the store exactly as it was,
    whatever the path and the value. *)
Theorem denied_access_throws s path v l l1 :
  (allowedToRead call s path l = (inr false, l1) ->
   read call s path l =
   (inl (PermissionDenied
           (String.append "Not allowed to read for path " path)), l1)) /\
  (allowedToWrite call s path l = (inr false, l1) ->
   write call s path v l =
   ((inl (PermissionDenied
            (String.append "Not allowed to write for path " path)), s), l1)).
Proof.
  unfold allowedToRead, allowedToWrite, checkHasPermissionForKey, read, write.
  generalize (join_split path).
  destruct (split path) as [|first rest] eqn:E;
    [exfalso; exact (split_not_nil path E)|].
  intros J. split; intros H.
  - rewrite <- J. now apply readSegments_denied.
  - rewrite <- J. now apply writeValue_denied.
Qed.

(** A permitted write, whatever the value and the rest of the path,
    starts with [define] on the first segment and the lookup of
    [getDescriptor] on the instance. *)
Lemma writeValue_permitted v rest first s l l1 perms :
  checkSegments call rest first s ["w"; "rw"] l = (inr true, l1) ->
  getPermissionsForKey s first = inr perms ->
  String.eqb first "getDescriptor" = true ->
  writeValue call v rest first s l
    = ((inl TypeError, define s first perms), l1).
Proof.
  intros H Hp Hg.
  destruct rest as [|next rest].
  - destruct (isObject v) eqn:O.
    + rewrite writeValue_single_object by assumption. now rewrite H, Hp, Hg.
    + rewrite writeValue_single_leaf by assumption. now rewrite H, Hp, Hg.
  - now rewrite writeValue_multi, H, Hp, Hg.
Qed.

(** X8: a permitted write whose first segment is getDescriptor throws a
    TypeError for every value, after [define] has already replaced the
    member function by an accessor on the instance. *)
Theorem write_to_getDescriptor_throws s path rest v l l1 perms :
  split path = "getDescriptor" :: rest ->
  allowedToWrite call s path l = (inr true, l1) ->
  getPermissionsForKey s "getDescriptor" = inr perms ->
  write call s path v l
    = ((inl TypeError, define s "getDescriptor" perms), l1) /\
  getDescriptor (afterWrite (write call s path v l)) "getDescriptor"
    = Some (Accessor, VUndefined).
Proof.
  intros Hk Ha Hp.
  unfold allowedToWrite, checkHasPermissionForKey in Ha. rewrite Hk in Ha.
  assert (W : write call s path v l
              = ((inl TypeError, define s "getDescriptor" perms), l1)).
  { unfold write. rewrite Hk. now apply writeValue_permitted. }
  split; [exact W|].
  rewrite W. unfold afterWrite. cbn [fst snd]. apply getDescriptor_define.
Qed.

(** X9: a successful write along a path of several segments puts in the
    slot of the first segment the store that the write of the rest of the
    path builds on a new store; what the slot held before, a store
    included, is discarded. *)
Theorem path_write_replaces_slot s path first next rest v l r s' l' :
  split path = first :: next :: rest ->
  write call s path v l = ((inr r, s'), l') ->
  exists l1 r0 c,
    write call newStore (join (next :: rest)) v l1 = ((inr r0, c), l') /\
    r = VStore c /\
    descriptor_get (getDescriptor s' first) = VStore c.
Proof.
  intros Hk Hw.
  pose proof (@tail_single path first next rest Hk) as F.
  unfold write in Hw. rewrite Hk, writeValue_multi in Hw.
  destruct (checkSegments call (next :: rest) first s ["w"; "rw"] l)
    as [[e|[|]] l1]; try discriminate Hw.
  destruct (getPermissionsForKey s first) as [e|perms]; try discriminate Hw.
  destruct (String.eqb first "getDescriptor"); try discriminate Hw.
  destruct (writeValue call v rest next newStore l1) as [[[e|r0] c] l2] eqn:E;
    try discriminate Hw.
  inversion Hw. subst. exists l1, r0, c.
  split; [|split; [reflexivity | now rewrite getDescriptor_setSlot]].
  unfold write.
  now rewrite (split_join_single (l := next :: rest))
    by (discriminate || assumption).
Qed.

(** X10: when the population of the new nested store fails, the write
    of an object fails with the same error after the slot has been
    redefined: the slot then reads undefined, whatever it held. *)
Theorem failed_object_write_resets_slot s key v l e c l2 :
  split key = [key] ->
  isObject v = true ->
  allowedToWrite call s key l = (inr true, l) ->
  String.eqb key "getDescriptor" = false ->
  writeEntries call newStore v l = ((inl e, c), l2) ->
  exists s',
    write call s key v l = ((inl e, s'), l2) /\
    getDescriptor s' key = Some (Accessor, VUndefined).
Proof.
  intros Hk Ho Ha Hg He.
  rewrite allowedToWrite_single in Ha by assumption.
  rewrite write_single by assumption.
  rewrite writeValue_single_object by assumption.
  rewrite Ha.
  destruct (checkSegments_single_inv _ _ _ _ _ Ha) as (_ & _ & kp & Hp & _).
  rewrite Hp, Hg, He.
  eexists. split; [reflexivity | apply getDescriptor_define].
Qed.

End Edges.

Lemma read_without_accessor_is_undefined_witness :
  read sampleCall newStore "missing" [] = (inr VUndefined, []) /\
  read sampleCall newStore "defaultPolicy" [] = (inr VUndefined, []).
Proof.
  split.
  - apply (@read_without_accessor_is_undefined sampleCall newStore "missing" []);
      [reflexivity | reflexivity | left; reflexivity].
  - apply (@read_without_accessor_is_undefined sampleCall newStore
             "defaultPolicy" []);
      [reflexivity | reflexivity | right; eexists; reflexivity].
Defined.

Lemma denied_access_throws_witness :
  read sampleCall vault "secret" [] =
    (inl (PermissionDenied "Not allowed to read for path secret"), []) /\
  write sampleCall nonePolicyStore "x" (VNum 1) [] =
    ((inl (PermissionDenied "Not allowed to write for path x"),
      nonePolicyStore), []).
Proof.
  split.
  - apply (proj1 (@denied_access_throws sampleCall vault "secret" VNull [] []));
      reflexivity.
  - apply (proj2 (@denied_access_throws sampleCall nonePolicyStore "x"
                    (VNum 1) [] [])); reflexivity.
Defined.

Lemma write_to_getDescriptor_throws_witness :
  (write sampleCall newStore "getDescriptor" (VNum 1) []
     = ((inl TypeError, define newStore "getDescriptor" []), []) /\
   getDescriptor
     (afterWrite (write sampleCall newStore "getDescriptor" (VNum 1) []))
     "getDescriptor" = Some (Accessor, VUndefined)) /\
  allowedToWrite sampleCall counterStore "getDescriptor:x:y" []
    = (inr true, []) /\
  (write sampleCall counterStore "getDescriptor:x:y" (VNum 1) []
     = ((inl TypeError, define counterStore "getDescriptor" []), []) /\
   getDescriptor
     (afterWrite (write sampleCall counterStore "getDescriptor:x:y" (VNum 1) []))
     "getDescriptor" = Some (Accessor, VUndefined)).
Proof.
  split; [|split; [reflexivity|]].
  - apply (@write_to_getDescriptor_throws sampleCall newStore "getDescriptor"
             [] (VNum 1) [] [] []); reflexivity.
  - apply (@write_to_getDescriptor_throws sampleCall counterStore
             "getDescriptor:x:y" ["x"; "y"] (VNum 1) [] [] []); reflexivity.
Defined.

Lemma path_write_replaces_slot_witness :
  let s := afterWrite (write sampleCall newStore "a:b" (VNum 1) []) in
  let w := write sampleCall s "a:c" (VNum 2) [] in
  exists l1 r0 c,
    write sampleCall newStore (join ["c"]) (VNum 2) l1 = ((inr r0, c), snd w) /\
    fst (fst w) = inr (VStore c) /\
    descriptor_get (getDescriptor (afterWrite w) "a") = VStore c.
Proof.
  cbv zeta.
  destruct (@path_write_replaces_slot sampleCall
              (afterWrite (write sampleCall newStore "a:b" (VNum 1) []))
              "a:c" "a" "c" [] (VNum 2) [] _ _ _ eq_refl eq_refl)
    as (l1 & r0 & c & H1 & H2 & H3).
  exists l1, r0, c. split; [exact H1|]. split; [|exact H3].
  rewrite <- H2. reflexivity.
Defined.

Lemma failed_object_write_resets_slot_witness :
  let s := afterWrite (write sampleCall newStore "x" (VNum 1) []) in
  exists s',
    write sampleCall s "x" (VObj [("getDescriptor", VNum 2)]) []
      = ((inl TypeError, s'), []) /\
    getDescriptor s' "x" = Some (Accessor, VUndefined).
Proof.
  cbv zeta.
  apply (@failed_object_write_resets_slot sampleCall _ "x"
           (VObj [("getDescriptor", VNum 2)]) [] TypeError
           (define newStore "getDescriptor" []) []); reflexivity.
Defined.

(** ** Writing along a path and reading back *)

Lemma mem_app (k : string) (l1 l2 : list string) :
  mem k (l1 ++ l2) = mem k l1 || mem k l2.
Proof. unfold mem. apply existsb_app. Qed.

Lemma ordinary_facts (k : string) :
  ordinary k ->
  split k = [k] /\
  mem k storeMembers = false /\
  mem k objectMembers = false /\
  String.eqb k "defaultPolicy" = false /\
  String.eqb k "permissionsByKey" = false /\
  String.eqb k "getDescriptor" = false.
Proof.
  intros [Hs Hr]. unfold reserved in Hr.
  rewrite !mem_app in Hr.
  apply orb_false_iff in Hr. destruct Hr as [Hm Hr].
  apply orb_false_iff in Hr. destruct Hr as [Ho Hf].
  simpl in Hf. rewrite orb_false_r in Hf.
  apply orb_false_iff in Hf. destruct Hf as [Hd Hp].
  repeat split; try assumption.
  destruct (String.eqb k "getDescriptor") eqn:E; [|reflexivity].
  apply String.eqb_eq in E. subst k. discriminate Hm.
Qed.

Lemma define_newStore (k : string) (x : value) :
  ordinary k -> setSlot (define newStore k []) k x = holder k x.
Proof.
  intros H. destruct (ordinary_facts H) as (_ & _ & _ & Hd & Hp & _).
  unfold setSlot, define, holder, newStore, assign, getProp, getDescriptor.
  cbn [own chain hidden assoc upsert truthy ownEntries String.eqb Ascii.eqb
       Bool.eqb].
  cbn. rewrite Hd, Hp. cbn. now rewrite Hd, Hp, String.eqb_refl.
Qed.

Section FreshPaths.

Variable call : nat -> store -> error + value.

Lemma getPermissionsForKey_newStore (k : string) :
  getPermissionsForKey newStore k = inr [].
Proof. reflexivity. Qed.

Lemma assoc_holder (k : string) (x : value) :
  ordinary k -> assoc k (own (holder k x)) = Some (Accessor, x).
Proof.
  intros H. destruct (ordinary_facts H) as (_ & _ & _ & Hd & Hp & _).
  unfold holder. cbn [own assoc]. now rewrite Hd, Hp, String.eqb_refl.
Qed.

Lemma shadowed_holder (k : string) (x : value) :
  ordinary k -> shadowed (holder k x) = false.
Proof.
  intros H. destruct (ordinary_facts H) as (_ & Hm & _).
  unfold shadowed, holder. cbn [own chain map fst flat_map app existsb].
  rewrite Hm. reflexivity.
Qed.

Lemma getPermissionsForKey_holder (k : string) (x : value) :
  ordinary k -> getPermissionsForKey (holder k x) k = inr [].
Proof.
  intros H. unfold getPermissionsForKey, getProp, getDescriptor, holder.
  cbn [own chain hidden assoc String.eqb Ascii.eqb Bool.eqb index ownEntries].
  cbn. now rewrite String.eqb_refl.
Qed.

Lemma check_holder (k : string) (x : value) permissions l :
  ordinary k ->
  mem "none" permissions = false ->
  checkSegments call [] k (holder k x) permissions l
    = (inr (includes permissions (VStr "rw")), l).
Proof.
  intros H Hn.
  rewrite checkSegments_single, shadowed_holder, getPermissionsForKey_holder
    by assumption.
  rewrite decision_default by (assumption || apply andb_false_r).
  reflexivity.
Qed.

Lemma getValueForKey_newStore (k : string) l :
  ordinary k -> getValueForKey call newStore k l = (inr VUndefined, l).
Proof.
  intros H. destruct (ordinary_facts H) as (_ & Hm & Ho & Hd & Hp & _).
  unfold getValueForKey, getProp, getDescriptor, newStore.
  cbn [own chain hidden assoc chain_descriptor].
  now rewrite Hd, Hp, Hm, Ho.
Qed.

Lemma check_newStore rest next permissions l :
  ordinary next ->
  mem "none" permissions = false ->
  checkSegments call rest next newStore permissions l
    = (inr (includes permissions (VStr "rw")), l).
Proof.
  intros H Hn.
  rewrite checkSegments_local with (l1 := l).
  - rewrite localPermission_run, getPermissionsForKey_newStore.
    rewrite decision_default by (assumption || apply andb_false_r).
    reflexivity.
  - reflexivity.
  - destruct rest; [reflexivity|].
    exists VUndefined. split; [now apply getValueForKey_newStore | reflexivity].
Qed.

(** A write of a leaf along ordinary segments on a new store succeeds
    and builds the chain of stores holding the leaf. *)
Lemma fresh_path_write v : forall rest next l,
  Forall ordinary (next :: rest) ->
  isObject v = false ->
  exists r0,
    writeValue call v rest next newStore l
      = ((inr r0, chainStore rest next v), l).
Proof.
  induction rest as [|n rest IH]; intros next l F Hv;
    inversion F as [|x y Hnext Hrest]; subst.
  - exists v. rewrite writeValue_single_leaf by assumption.
    rewrite check_newStore by (assumption || reflexivity).
    cbn [includes mem existsb String.eqb Ascii.eqb Bool.eqb orb].
    rewrite getPermissionsForKey_newStore.
    destruct (ordinary_facts Hnext) as (_ & _ & _ & _ & _ & Hg).
    rewrite Hg. cbn [chainStore]. now rewrite define_newStore.
  - destruct (IH n l Hrest Hv) as (r0 & E).
    eexists. rewrite writeValue_multi.
    rewrite check_newStore by (assumption || reflexivity).
    cbn [includes mem existsb String.eqb Ascii.eqb Bool.eqb orb].
    rewrite getPermissionsForKey_newStore.
    destruct (ordinary_facts Hnext) as (_ & _ & _ & _ & _ & Hg).
    rewrite Hg, E. cbn [chainStore]. now rewrite define_newStore.
Qed.

Lemma getValueForKey_holder_store (k : string) (c : store) l :
  ordinary k ->
  getValueForKey call (holder k (VStore c)) k l = (inr (VStore c), l).
Proof.
  intros H. unfold getValueForKey, getDescriptor.
  now rewrite assoc_holder.
Qed.

(** Every segment of the chain is readable and writable. *)
Lemma chain_check v permissions : forall rest next l,
  Forall ordinary (next :: rest) ->
  mem "none" permissions = false ->
  checkSegments call rest next (chainStore rest next v) permissions l
    = (inr (includes permissions (VStr "rw")), l).
Proof.
  induction rest as [|n rest IH]; intros next l F Hn;
    inversion F as [|x y Hnext Hrest]; subst.
  - now apply check_holder.
  - cbn [chainStore checkSegments].
    rewrite shadowed_holder by assumption.
    unfold bind. rewrite getValueForKey_holder_store by assumption.
    now apply IH.
Qed.

(** Reading the chain along its segments gives the leaf. *)
Lemma chain_read v : forall rest next l,
  Forall ordinary (next :: rest) ->
  isPrimitive v = true ->
  readSegments call rest next (chainStore rest next v) l = (inr v, l).
Proof.
  induction rest as [|n rest IH]; intros next l F Hv;
    inversion F as [|x y Hnext Hrest]; subst.
  - rewrite readSegments_single.
    rewrite check_holder by (assumption || reflexivity).
    cbn [includes mem existsb String.eqb Ascii.eqb Bool.eqb orb chainStore].
    unfold getDescriptor. rewrite assoc_holder by assumption.
    destruct v; try discriminate Hv; reflexivity.
  - cbn [readSegments]. unfold bind at 1.
    rewrite (@chain_check v ["r"; "rw"] (n :: rest) next l F eq_refl).
    cbn [includes mem existsb String.eqb Ascii.eqb Bool.eqb orb negb chainStore].
    unfold getDescriptor. rewrite assoc_holder by assumption.
    cbn [descriptor_get resolveValue]. unfold bind, ret.
    now apply IH.
Qed.

End FreshPaths.

Lemma existsb_false {A} (f : A -> bool) (l : list A) :
  existsb f l = false <-> forall x, In x l -> f x = false.
Proof.
  induction l as [|a r IH]; simpl.
  - split; [intros _ x [] | reflexivity].
  - rewrite orb_false_iff, IH. split.
    + intros [Ha Hr] x [<-|Hx]; auto.
    + intros H. split; [apply H; now left | intros x Hx; apply H; now right].
Qed.

Lemma chain_assign s a v : chain (assign s a v) = chain s.
Proof.
  unfold assign. destruct (assoc a (own s)) as [[kd x]|]; [reflexivity|].
  destruct (chain_descriptor (hidden s) (chain s) a) as [[[] x]|]; reflexivity.
Qed.

Lemma own_assign_keys s a v k :
  In k (map fst (own (assign s a v))) -> k = a \/ In k (map fst (own s)).
Proof.
  unfold assign. destruct (assoc a (own s)) as [[kd x]|].
  - cbn [own]. apply keys_upsert.
  - destruct (chain_descriptor (hidden s) (chain s) a) as [[[] x]|];
      cbn [own]; try apply keys_upsert. now right.
Qed.

(** A write does not shadow a member function unless its first segment
    names one. *)
Lemma shadowed_after_write s first perms x :
  shadowed s = false ->
  mem first storeMembers = false ->
  shadowed (setSlot (define s first perms) first x) = false.
Proof.
  intros Hs Hf. unfold shadowed in *.
  rewrite existsb_false in *. intros k Hk.
  apply in_app_or in Hk. destruct Hk as [Hk|Hk].
  - unfold setSlot, define in Hk. cbn [own] in Hk.
    apply keys_upsert in Hk. destruct Hk as [->|Hk]; [assumption|].
    apply keys_upsert in Hk. destruct Hk as [->|Hk]; [assumption|].
    apply own_assign_keys in Hk. destruct Hk as [->|Hk]; [reflexivity|].
    apply Hs. apply in_or_app. now left.
  - unfold setSlot, define in Hk. cbn [chain] in Hk.
    rewrite chain_assign in Hk.
    apply Hs. apply in_or_app. now right.
Qed.

(** X11: after a successful write of a primitive along a path of
    several segments (the first not naming a member function, the others
    ordinary keys), every read of the same path returns that primitive,
    whatever the policy of the store written to. *)
Theorem path_write_then_read
    (call : nat -> store -> error + value) s path first next rest v l r s' l' :
  split path = first :: next :: rest ->
  Forall ordinary (next :: rest) ->
  mem first storeMembers = false ->
  isPrimitive v = true ->
  write call s path v l = ((inr r, s'), l') ->
  forall l2,
    allowedToRead call s' path l2 = (inr true, l2) /\
    read call s' path l2 = (inr v, l2).
Proof.
  intros Hk F Hf Hv Hw l2.
  assert (Ho : isObject v = false) by (destruct v; try discriminate; reflexivity).
  unfold write in Hw. rewrite Hk, writeValue_multi in Hw.
  destruct (checkSegments call (next :: rest) first s ["w"; "rw"] l)
    as [[e|[|]] l1] eqn:C; try discriminate Hw.
  assert (Hs : shadowed s = false).
  { cbn [checkSegments] in C. destruct (shadowed s); [discriminate C|reflexivity]. }
  destruct (getPermissionsForKey s first) as [e|perms]; try discriminate Hw.
  destruct (String.eqb first "getDescriptor"); try discriminate Hw.
  destruct (@fresh_path_write call v rest next l1 F Ho) as (r0 & E).
  rewrite E in Hw. inversion Hw. subst r s' l'. clear Hw.
  set (c := chainStore rest next v).
  set (t := setSlot (define s first perms) first (VStore c)).
  assert (St : shadowed t = false) by now apply shadowed_after_write.
  assert (G : forall l0, getValueForKey call t first l0 = (inr (VStore c), l0)).
  { intros l0. unfold getValueForKey, t. now rewrite getDescriptor_setSlot. }
  assert (A : checkSegments call (next :: rest) first t ["r"; "rw"] l2
              = (inr true, l2)).
  { cbn [checkSegments]. rewrite St. unfold bind. rewrite G.
    unfold c. now rewrite chain_check by (assumption || reflexivity). }
  split.
  - unfold allowedToRead, checkHasPermissionForKey. now rewrite Hk.
  - unfold read. rewrite Hk. cbn [readSegments]. unfold bind at 1.
    rewrite A. cbn [negb]. unfold t at 1. rewrite getDescriptor_setSlot.
    cbn [descriptor_get resolveValue]. unfold bind, ret.
    unfold c. now apply chain_read.
Qed.

Lemma path_write_then_read_witness :
  allowedToRead sampleCall
    (afterWrite (write sampleCall nonePolicyStore "a:b:c" (VStr "v") []))
    "a:b:c" [] = (inr true, []) /\
  read sampleCall
    (afterWrite (write sampleCall nonePolicyStore "a:b:c" (VStr "v") []))
    "a:b:c" [] = (inr (VStr "v"), []).
Proof.
  apply (@path_write_then_read sampleCall nonePolicyStore "a:b:c" "a" "b" ["c"]
           (VStr "v") [] (VStore (chainStore ["c"] "b" (VStr "v")))
           (afterWrite (write sampleCall nonePolicyStore "a:b:c" (VStr "v") []))
           []);
    try reflexivity.
  repeat constructor.
Defined.

(** ** Bulk writes of flat objects *)

Section Bulk.

Variable call : nat -> store -> error + value.

Lemma flatStore_newStore : flatStore newStore.
Proof.
  repeat split. exists []. split; [reflexivity | constructor].
Qed.

Lemma flatStore_permissions s k :
  flatStore s -> getPermissionsForKey s k = inr [].
Proof.
  intros (Hc & _ & _ & tbl & Ht & Hf).
  unfold getPermissionsForKey, getProp, getDescriptor. rewrite Ht, Hc.
  cbn [index ownEntries chain_permissions].
  destruct (assoc k tbl) as [x|] eqn:E; [|reflexivity].
  apply assoc_In in E. rewrite Forall_forall in Hf.
  specialize (Hf _ E). simpl in Hf. now subst x.
Qed.

Lemma flatStore_check s k permissions l :
  flatStore s ->
  mem "none" permissions = false ->
  checkSegments call [] k s permissions l
    = (inr (includes permissions (VStr "rw")), l).
Proof.
  intros H Hn. pose proof (@flatStore_permissions s k H) as Hp.
  destruct H as (_ & Hs & Hd & _).
  rewrite checkSegments_single, Hs, Hp.
  rewrite decision_default by (assumption || apply andb_false_r).
  unfold getProp, getDescriptor. now rewrite Hd.
Qed.

Lemma own_define s k tbl :
  assoc "permissionsByKey" (own s) = Some (Data, VObj tbl) ->
  own (define s k []) =
  upsert k (Accessor, VUndefined)
    (upsert "permissionsByKey" (Data, VObj (upsert k (VArr []) tbl)) (own s)).
Proof.
  intros Ht. unfold define, getProp, getDescriptor, assign. rewrite Ht.
  reflexivity.
Qed.

(** One write of a leaf under an ordinary key keeps a flat store flat,
    fills the key's slot and touches no other slot. *)
Lemma flatStore_write s k v l :
  flatStore s ->
  ordinary k ->
  isObject v = false ->
  exists s',
    write call s k v l = ((inr v, s'), l) /\
    flatStore s' /\
    getDescriptor s' k = Some (Accessor, v) /\
    forall k', String.eqb k' k = false ->
               String.eqb k' "permissionsByKey" = false ->
               getDescriptor s' k' = getDescriptor s k'.
Proof.
  intros H Ho Hv.
  destruct (ordinary_facts Ho) as (Hk & Hm & _ & Hd & Hp & Hg).
  pose proof (@flatStore_permissions s k H) as Pk.
  pose proof (@flatStore_check s k ["w"; "rw"] l H eq_refl) as C.
  destruct H as (Hc & Hs & Hdp & tbl & Ht & Hf).
  exists (setSlot (define s k []) k v).
  rewrite write_single, writeValue_single_leaf by assumption.
  rewrite C. cbn [includes mem existsb String.eqb Ascii.eqb Bool.eqb orb].
  rewrite Pk, Hg. split; [reflexivity|].
  assert (O : own (setSlot (define s k []) k v) =
              upsert k (Accessor, v)
                (upsert k (Accessor, VUndefined)
                   (upsert "permissionsByKey"
                      (Data, VObj (upsert k (VArr []) tbl)) (own s)))).
  { unfold setSlot. cbn [own]. now rewrite (@own_define s k tbl Ht). }
  assert (Ch : chain (setSlot (define s k []) k v) = []).
  { unfold setSlot, define. cbn [chain]. now rewrite chain_assign. }
  assert (Hd' : String.eqb "defaultPolicy" k = false)
    by now rewrite String.eqb_sym.
  assert (Hp' : String.eqb "permissionsByKey" k = false)
    by now rewrite String.eqb_sym.
  split; [|split].
  - split; [exact Ch|]. split; [now apply shadowed_after_write|].
    rewrite O. split.
    + rewrite !assoc_upsert_other by (assumption || reflexivity).
      assumption.
    + exists (upsert k (VArr []) tbl). split.
      * rewrite !assoc_upsert_other by assumption.
        apply assoc_upsert_same.
      * clear -Hf. induction tbl as [|[k0 x0] r IH]; simpl.
        -- constructor; [reflexivity | constructor].
        -- inversion Hf as [|a b Ha Hb]. subst.
           destruct (String.eqb k k0).
           ++ constructor; [reflexivity | assumption].
           ++ constructor; [assumption | now apply IH].
  - apply getDescriptor_setSlot.
  - intros k' Hk' Hq. unfold getDescriptor. rewrite O, Ch, Hc.
    now rewrite !assoc_upsert_other by assumption.
Qed.

Lemma flatStore_read s k v l :
  flatStore s ->
  split k = [k] ->
  getDescriptor s k = Some (Accessor, v) ->
  isPrimitive v = true ->
  read call s k l = (inr v, l).
Proof.
  intros H Hk Hd Hv.
  rewrite read_single, readSegments_single by assumption.
  rewrite flatStore_check by (assumption || reflexivity).
  cbn [includes mem existsb String.eqb Ascii.eqb Bool.eqb orb].
  rewrite Hd. destruct v; try discriminate Hv; reflexivity.
Qed.

End Bulk.

Lemma checkSegments_descend (call : nat -> store -> error + value)
    s first next rest child permissions l l1 :
  shadowed s = false ->
  getValueForKey call s first l = (inr (VStore child), l1) ->
  checkSegments call (next :: rest) first s permissions l =
  checkSegments call rest next child permissions l1.
Proof.
  intros Hs Hv. cbn [checkSegments]. rewrite Hs. unfold bind. now rewrite Hv.
Qed.

Lemma readSegments_descend (call : nat -> store -> error + value)
    s first next rest child l l1 l2 :
  checkSegments call (next :: rest) first s ["r"; "rw"] l = (inr true, l1) ->
  resolveValue call (descriptor_get (getDescriptor s first)) s l1
    = (inr (VStore child), l2) ->
  readSegments call (next :: rest) first s l =
  readSegments call rest next child l2.
Proof.
  intros Hc Hv. cbn [readSegments]. unfold bind at 1. rewrite Hc.
  cbn [negb]. unfold bind at 1. now rewrite Hv.
Qed.

Section BulkEntries.

Variable call : nat -> store -> error + value.

Lemma flat_writeEach : forall kvs s l,
  flatStore s ->
  flatObject kvs ->
  exists s',
    writeEach call kvs s l = ((inr tt, s'), l) /\
    flatStore s' /\
    (forall k v, In (k, v) kvs -> getDescriptor s' k = Some (Accessor, v)) /\
    (forall k', ~ In k' (map fst kvs) ->
                String.eqb k' "permissionsByKey" = false ->
                getDescriptor s' k' = getDescriptor s k').
Proof.
  induction kvs as [|[k v] r IH]; intros s l Hs [Hf Hn].
  - exists s. split; [reflexivity|]. split; [assumption|].
    split; [intros k v [] | reflexivity].
  - inversion Hf as [|a b [Ho Hv] Hr]. subst.
    simpl in Hn. inversion Hn as [|a b Hk Hd]. subst.
    assert (Hv' : isObject v = false)
      by (destruct v; try discriminate; reflexivity).
    destruct (@flatStore_write call s k v l Hs Ho Hv')
      as (s1 & W1 & F1 & D1 & P1).
    destruct (IH s1 l F1 (conj Hr Hd)) as (s' & W' & F' & D' & P').
    destruct (ordinary_facts Ho) as (_ & _ & _ & _ & Hp & _).
    exists s'. split; [|split; [exact F'|split]].
    + cbn [writeEach]. unfold subW. now rewrite W1.
    + intros k0 v0 [E|HIn].
      * inversion E. subst. now rewrite P'.
      * now apply D'.
    + intros k' Hk' Hq.
      rewrite P' by (assumption || (intros H; apply Hk'; now right)).
      apply P1; [|assumption].
      destruct (String.eqb k' k) eqn:E; [|reflexivity].
      apply String.eqb_eq in E. subst. destruct Hk'. now left.
Qed.

(** X12: [writeEntries] of an object with distinct ordinary keys and
    primitive values, on a direct instance with the read-write policy
    whose recorded permission lists are empty, performs every write;
    afterwards each key reads back its value and no other slot has
    changed. *)
Theorem writeEntries_flat_object s kvs l :
  flatStore s ->
  flatObject kvs ->
  exists s',
    writeEntries call s (VObj kvs) l = ((inr tt, s'), l) /\
    (forall k v, In (k, v) kvs ->
       forall l2, read call s' k l2 = (inr v, l2)) /\
    (forall k', ~ In k' (map fst kvs) ->
                String.eqb k' "permissionsByKey" = false ->
                getDescriptor s' k' = getDescriptor s k').
Proof.
  intros Hs Ho.
  destruct (flat_writeEach l Hs Ho) as (s' & W & F & D & P).
  exists s'. split; [exact W|]. split; [|exact P].
  intros k v HIn l2.
  destruct Ho as [Hf _]. rewrite Forall_forall in Hf.
  destruct (Hf _ HIn) as [[Hk _] Hv]. simpl in Hk, Hv.
  apply flatStore_read; try assumption. now apply D.
Qed.

(** X13: a permitted write of such an object to a single-segment key
    (not naming a member function) stores a new nested store, and each
    entry is then read back under key:entry, whatever the policy of the
    outer store. *)
Theorem write_object_then_read_entries s key kvs l :
  split key = [key] ->
  mem key storeMembers = false ->
  allowedToWrite call s key l = (inr true, l) ->
  flatObject kvs ->
  exists c s',
    write call s key (VObj kvs) l = ((inr (VStore c), s'), l) /\
    forall k v, In (k, v) kvs ->
      forall l2,
        read call s' (String.append key (String ":"%char k)) l2 = (inr v, l2).
Proof.
  intros Hk Hm Ha Ho.
  destruct (flat_writeEach l flatStore_newStore Ho) as (c & W & F & D & _).
  rewrite allowedToWrite_single in Ha by assumption.
  destruct (checkSegments_single_inv _ _ _ _ _ Ha) as (Hs & _ & kp & Hp & _).
  assert (Hg : String.eqb key "getDescriptor" = false).
  { destruct (String.eqb key "getDescriptor") eqn:E; [|reflexivity].
    apply String.eqb_eq in E. subst. discriminate Hm. }
  exists c, (setSlot (define s key kp) key (VStore c)).
  split.
  - rewrite write_single, writeValue_single_object by (assumption || reflexivity).
    rewrite Ha, Hp, Hg. unfold writeEntries. cbn [ownEntries]. now rewrite W.
  - intros k v HIn l2.
    destruct Ho as [Hf _]. rewrite Forall_forall in Hf.
    destruct (Hf _ HIn) as [[Hsk _] Hv]. simpl in Hsk, Hv.
    set (t := setSlot (define s key kp) key (VStore c)).
    assert (St : shadowed t = false) by now apply shadowed_after_write.
    assert (Sp : split (String.append key (String ":"%char k)) = [key; k]).
    { rewrite split_single_prepend by assumption. now rewrite Hsk. }
    assert (R : read call c k l2 = (inr v, l2)).
    { apply flatStore_read; try assumption. now apply D. }
    rewrite read_single in R by assumption.
    assert (C : checkSegments call [] k c ["r"; "rw"] l2 = (inr true, l2)).
    { rewrite flatStore_check by (assumption || reflexivity). reflexivity. }
    assert (G : getValueForKey call t key l2 = (inr (VStore c), l2)).
    { unfold getValueForKey, t. now rewrite getDescriptor_setSlot. }
    unfold read. rewrite Sp.
    rewrite readSegments_descend with (child := c) (l1 := l2) (l2 := l2).
    + exact R.
    + rewrite checkSegments_descend with (child := c) (l1 := l2);
        assumption.
    + unfold t. now rewrite getDescriptor_setSlot.
Qed.

End BulkEntries.

Ltac flat_object :=
  split;
  [ repeat (constructor; [split; [split; reflexivity | reflexivity]|]);
    constructor
  | distinct_keys ].

Lemma writeEntries_flat_object_witness :
  exists s',
    writeEntries sampleCall newStore (VObj [("a", VNum 1); ("b", VNum 2)]) []
      = ((inr tt, s'), []) /\
    (forall k v, In (k, v) [("a", VNum 1); ("b", VNum 2)] ->
       forall l2, read sampleCall s' k l2 = (inr v, l2)) /\
    (forall k', ~ In k' (map fst [("a", VNum 1); ("b", VNum 2)]) ->
                String.eqb k' "permissionsByKey" = false ->
                getDescriptor s' k' = getDescriptor newStore k').
Proof.
  apply (@writeEntries_flat_object sampleCall newStore
           [("a", VNum 1); ("b", VNum 2)] []);
    [apply flatStore_newStore | flat_object].
Defined.

Lemma write_object_then_read_entries_witness :
  exists c s',
    write sampleCall newStore "cfg" (VObj [("a", VNum 1); ("b", VNum 2)]) []
      = ((inr (VStore c), s'), []) /\
    forall k v, In (k, v) [("a", VNum 1); ("b", VNum 2)] ->
      forall l2,
        read sampleCall s' (String.append "cfg" (String ":"%char k)) l2
          = (inr v, l2).
Proof.
  apply (@write_object_then_read_entries sampleCall newStore "cfg"
           [("a", VNum 1); ("b", VNum 2)] []);
    [reflexivity | reflexivity | reflexivity | flat_object].
Defined.

(** ** [writeEntries] is a sequence of writes *)

Section Sequence.

Variable call : nat -> store -> error + value.

Lemma writeEach_app pre post : forall s l,
  writeEach call (pre ++ post) s l =
  match writeEach call pre s l with
  | ((inl e, c), l1) => ((inl e, c), l1)
  | ((inr _, c), l1) => writeEach call post c l1
  end.
Proof.
  induction pre as [|[k x] r IH]; intros s l; [reflexivity|].
  cbn [app writeEach]. unfold subW.
  destruct (write call s k x l) as [[[e|a] c] l1]; [reflexivity | apply IH].
Qed.

(** X14: [writeEntries] is not transactional.  When the entries before
    one have been written and the write of that one throws, the call
    throws the same error, the earlier writes stay applied, the store is
    as the failed write left it, and the later entries are not
    written. *)
Theorem writeEntries_stops_at_first_failure s pre k x post l s1 l1 e s2 l2 :
  writeEntries call s (VObj pre) l = ((inr tt, s1), l1) ->
  write call s1 k x l1 = ((inl e, s2), l2) ->
  writeEntries call s (VObj (pre ++ (k, x) :: post)) l = ((inl e, s2), l2).
Proof.
  unfold writeEntries. cbn [ownEntries]. intros Hpre Hk.
  rewrite writeEach_app, Hpre. cbn [writeEach]. unfold subW. now rewrite Hk.
Qed.

(** X15: a read along a path whose first segment holds a producer that
    returns a store invokes the producer twice, once for the permission
    check and once for the read itself, before going on in the returned
    store. *)
Theorem path_read_invokes_head_producer_twice s path first next rest f child l :
  split path = first :: next :: rest ->
  shadowed s = false ->
  getDescriptor s first = Some (Accessor, VFun f) ->
  call f s = inr (VStore child) ->
  read call s path l =
  match checkSegments call rest next child ["r"; "rw"] (l ++ [Invoke f s]) with
  | (inl e, l1) => (inl e, l1)
  | (inr false, l1) =>
      (inl (PermissionDenied
              (String.append "Not allowed to read for path " path)), l1)
  | (inr true, l1) =>
      readSegments call rest next child (l1 ++ [Invoke f s])
  end.
Proof.
  intros Hk Hs Hd Hc.
  assert (J : join (first :: next :: rest) = path)
    by (rewrite <- Hk; apply join_split).
  unfold read. rewrite Hk. cbn [readSegments checkSegments].
  rewrite Hs. unfold getValueForKey. rewrite Hd.
  cbn [descriptor_get resolveValue]. unfold bind, emit, lift. rewrite Hc.
  destruct (checkSegments call rest next child ["r"; "rw"] (l ++ [Invoke f s]))
    as [[e|[|]] l1]; cbn [negb]; try reflexivity.
  unfold throw. now rewrite J.
Qed.

End Sequence.

Lemma writeEntries_stops_at_first_failure_witness :
  let s1 := afterWrite (write sampleCall newStore "a" (VNum 1) []) in
  let s2 := afterWrite (write sampleCall s1 "getDescriptor" (VNum 2) []) in
  writeEntries sampleCall newStore
    (VObj ([("a", VNum 1)] ++ ("getDescriptor", VNum 2) :: [("b", VNum 3)])) []
    = ((inl TypeError, s2), []) /\
  getDescriptor s2 "a" = Some (Accessor, VNum 1) /\
  getDescriptor s2 "b" = None.
Proof.
  cbv zeta. split; [|split; reflexivity].
  apply (@writeEntries_stops_at_first_failure sampleCall newStore
           [("a", VNum 1)] "getDescriptor" (VNum 2) [("b", VNum 3)] []
           (afterWrite (write sampleCall newStore "a" (VNum 1) [])) []);
    reflexivity.
Defined.

Lemma path_read_invokes_head_producer_twice_witness :
  read sampleCall producerStore "p:b" [] =
  (inr (VNum 5), [Invoke 0 producerStore; Invoke 0 producerStore]).
Proof.
  rewrite (@path_read_invokes_head_producer_twice sampleCall producerStore
             "p:b" "p" "b" [] 0%nat (holder "b" (VNum 5)) []
             eq_refl eq_refl eq_refl eq_refl).
  reflexivity.
Defined.

(** ** [define] and the permission table *)

Lemma upsert_assoc_same {A} (k : string) (a : A) (l : list (string * A)) :
  assoc k l = Some a -> upsert k a l = l.
Proof.
  induction l as [|[k0 a0] r IH]; simpl; [discriminate|].
  destruct (String.eqb k k0) eqn:E.
  - apply String.eqb_eq in E. subst. intros H. now inversion H.
  - intros H. now rewrite IH.
Qed.

Lemma upsert_idem {A} (k : string) (a : A) (l : list (string * A)) :
  upsert k a (upsert k a l) = upsert k a l.
Proof. apply upsert_assoc_same, assoc_upsert_same. Qed.

Lemma define_shape s key params kd tbl :
  assoc "permissionsByKey" (own s) = Some (kd, VObj tbl) ->
  define s key params =
  mkStore (chain s) (hidden s)
    (upsert key (Accessor, VUndefined)
       (upsert "permissionsByKey"
               (kd, VObj (upsert key (VArr params) tbl)) (own s))).
Proof.
  intros Ht. unfold define, getProp, getDescriptor, assign. now rewrite Ht.
Qed.

Lemma table_after_define s key params kd tbl :
  assoc "permissionsByKey" (own s) = Some (kd, VObj tbl) ->
  String.eqb "permissionsByKey" key = false ->
  assoc "permissionsByKey" (own (define s key params))
    = Some (kd, VObj (upsert key (VArr params) tbl)).
Proof.
  intros Ht Hk. rewrite (@define_shape s key params kd tbl Ht). cbn [own].
  rewrite assoc_upsert_other by assumption. apply assoc_upsert_same.
Qed.

Lemma shadowed_define s key params :
  shadowed s = false ->
  mem key storeMembers = false ->
  shadowed (define s key params) = false.
Proof.
  intros Hs Hf. unfold shadowed in *.
  rewrite existsb_false in *. intros k Hk.
  apply in_app_or in Hk. destruct Hk as [Hk|Hk].
  - unfold define in Hk. cbn [own] in Hk.
    apply keys_upsert in Hk. destruct Hk as [->|Hk]; [assumption|].
    apply own_assign_keys in Hk. destruct Hk as [->|Hk]; [reflexivity|].
    apply Hs. apply in_or_app. now left.
  - unfold define in Hk. cbn [chain] in Hk.
    rewrite chain_assign in Hk.
    apply Hs. apply in_or_app. now right.
Qed.

(** X16: on an instance that shadows no member function and whose
    permission table is an object, [define] for a key that is neither
    permissionsByKey nor the name of a member function leaves the member
    functions unshadowed, records the given list for the key (replacing
    an earlier one), leaves the lists resolved for all other keys alone,
    gives the key an accessor whose content reads undefined, and is
    idempotent. *)
Theorem define_records_and_resets s key params kd tbl :
  shadowed s = false ->
  mem key storeMembers = false ->
  assoc "permissionsByKey" (own s) = Some (kd, VObj tbl) ->
  String.eqb "permissionsByKey" key = false ->
  shadowed (define s key params) = false /\
  getPermissionsForKey (define s key params) key = inr params /\
  (forall k, String.eqb k key = false ->
             getPermissionsForKey (define s key params) k
               = getPermissionsForKey s k) /\
  getDescriptor (define s key params) key = Some (Accessor, VUndefined) /\
  (forall params',
      getPermissionsForKey (define (define s key params) key params') key
        = inr params') /\
  define (define s key params) key params = define s key params.
Proof.
  intros Hs Hm Ht Hk.
  split; [now apply shadowed_define|].
  assert (R : forall t p kd' tbl',
             assoc "permissionsByKey" (own t) = Some (kd', VObj tbl') ->
             getPermissionsForKey (define t key p) key = inr p).
  { intros t p kd' tbl' H. unfold getPermissionsForKey.
    rewrite (@getProp_table_define t key p kd' tbl' H Hk).
    cbn [index ownEntries]. now rewrite assoc_upsert_same. }
  split; [now apply R with (kd' := kd) (tbl' := tbl)|].
  split; [|split; [apply getDescriptor_define|split]].
  - intros k Hne. unfold getPermissionsForKey.
    rewrite (@getProp_table_define s key params kd tbl Ht Hk).
    assert (C : chain (define s key params) = chain s)
      by (rewrite (@define_shape s key params kd tbl Ht); reflexivity).
    rewrite C. unfold getProp, getDescriptor. rewrite Ht.
    cbn [index ownEntries]. now rewrite assoc_upsert_other.
  - intros params'.
    apply R with (kd' := kd) (tbl' := upsert key (VArr params) tbl).
    now apply table_after_define.
  - pose proof (@table_after_define s key params kd tbl Ht Hk) as T1.
    rewrite (@define_shape (define s key params) key params kd _ T1).
    rewrite (@define_shape s key params kd tbl Ht). cbn [chain hidden own].
    rewrite upsert_idem. f_equal.
    rewrite (@upsert_assoc_same _ "permissionsByKey").
    + apply upsert_idem.
    + rewrite assoc_upsert_other by assumption. apply assoc_upsert_same.
Qed.

Lemma define_records_and_resets_witness :
  shadowed (define counterStore "n" [VStr "r"]) = false /\
  getPermissionsForKey (define counterStore "n" [VStr "r"]) "n"
    = inr [VStr "r"] /\
  (forall k, String.eqb k "n" = false ->
             getPermissionsForKey (define counterStore "n" [VStr "r"]) k
               = getPermissionsForKey counterStore k) /\
  getDescriptor (define counterStore "n" [VStr "r"]) "n"
    = Some (Accessor, VUndefined) /\
  (forall params',
      getPermissionsForKey
        (define (define counterStore "n" [VStr "r"]) "n" params') "n"
        = inr params') /\
  define (define counterStore "n" [VStr "r"]) "n" [VStr "r"]
    = define counterStore "n" [VStr "r"].
Proof.
  apply (@define_records_and_resets counterStore "n" [VStr "r"] Data
           [("n", VArr []); ("p", VArr [])]); reflexivity.
Defined.

Section Kept.

Variable call : nat -> store -> error + value.

Lemma table_kept v rest first s l kd tbl :
  assoc "permissionsByKey" (own s) = Some (kd, VObj tbl) ->
  String.eqb "permissionsByKey" first = false ->
  exists tbl',
    assoc "permissionsByKey" (own (afterWrite (writeValue call v rest first s l)))
      = Some (kd, VObj tbl').
Proof.
  intros Ht Hf.
  destruct (afterWrite_cases call v rest first s l)
    as [E|(perms & Hp & [E|(x & E)])]; rewrite E.
  - now exists tbl.
  - exists (upsert first (VArr perms) tbl). now apply table_after_define.
  - exists (upsert first (VArr perms) tbl). unfold setSlot. cbn [own].
    rewrite assoc_upsert_other by assumption.
    now apply table_after_define.
Qed.

(** A write whose first segment names no member function leaves the
    member functions unshadowed, whether it succeeds or not. *)
Lemma unshadowed_kept v rest first s l :
  shadowed s = false ->
  mem first storeMembers = false ->
  shadowed (afterWrite (writeValue call v rest first s l)) = false.
Proof.
  intros Hs Hf.
  destruct (afterWrite_cases call v rest first s l)
    as [E|(perms & Hp & [E|(x & E)])]; rewrite E.
  - exact Hs.
  - now apply shadowed_define.
  - now apply shadowed_after_write.
Qed.

Lemma write_path_state s path v l :
  stateAfter (write call s path v l) =
  match split path with
  | first :: rest => afterWrite (writeValue call v rest first s l)
  | [] => s
  end.
Proof. unfold write. destruct (split path); reflexivity. Qed.

Lemma write_keeps s path v l kd tbl :
  shadowed s = false ->
  assoc "permissionsByKey" (own s) = Some (kd, VObj tbl) ->
  String.eqb "permissionsByKey" (firstSegment path) = false ->
  mem (firstSegment path) storeMembers = false ->
  shadowed (stateAfter (write call s path v l)) = false /\
  (forall k, getPermissionsForKey (stateAfter (write call s path v l)) k
             = getPermissionsForKey s k) /\
  exists tbl',
    assoc "permissionsByKey" (own (stateAfter (write call s path v l)))
      = Some (kd, VObj tbl').
Proof.
  intros Hs Ht Hf Hm. rewrite write_path_state. unfold firstSegment in Hf, Hm.
  destruct (split path) as [|first rest].
  - split; [exact Hs | split; [reflexivity | now exists tbl]].
  - split; [now apply unshadowed_kept | split].
    + intros k. now apply write_preserves_permissions with (kd := kd) (tbl := tbl).
    + now apply table_kept with (tbl := tbl).
Qed.

Lemma writeEach_keeps : forall kvs s l kd tbl,
  shadowed s = false ->
  assoc "permissionsByKey" (own s) = Some (kd, VObj tbl) ->
  Forall (fun kv =>
            String.eqb "permissionsByKey" (firstSegment (fst kv)) = false /\
            mem (firstSegment (fst kv)) storeMembers = false)
         kvs ->
  shadowed (stateAfter (writeEach call kvs s l)) = false /\
  forall k, getPermissionsForKey (stateAfter (writeEach call kvs s l)) k
            = getPermissionsForKey s k.
Proof.
  induction kvs as [|[k0 x] r IH]; intros s l kd tbl Hs Ht Hf;
    [split; [exact Hs | reflexivity]|].
  inversion Hf as [|a b [Hk Hm] Hr]. subst. simpl in Hk, Hm.
  destruct (@write_keeps s k0 x l kd tbl Hs Ht Hk Hm) as (S1 & P & tbl' & T).
  cbn [writeEach]. unfold subW.
  destruct (write call s k0 x l) as [[[e|a] c] l1] eqn:W;
    unfold stateAfter in S1, P, T; cbn [fst snd] in S1, P, T.
  - unfold stateAfter. cbn [fst snd]. split; [exact S1 | exact P].
  - destruct (IH c l1 kd tbl' S1 T Hr) as (S2 & Q).
    split; [exact S2|]. intros k. rewrite Q. apply P.
Qed.

(** X17: on an instance that shadows no member function and whose
    permission table is an object, no write and no [writeEntries],
    successful or not, shadows a member function or changes the
    permission list resolved for any key, as long as the first segment of
    every path written is neither permissionsByKey nor the name of a
    member function. *)
Theorem writes_keep_resolved_permissions s kd tbl :
  shadowed s = false ->
  assoc "permissionsByKey" (own s) = Some (kd, VObj tbl) ->
  (forall path v l,
      String.eqb "permissionsByKey" (firstSegment path) = false ->
      mem (firstSegment path) storeMembers = false ->
      shadowed (stateAfter (write call s path v l)) = false /\
      forall k, getPermissionsForKey (stateAfter (write call s path v l)) k
                = getPermissionsForKey s k) /\
  (forall obj l,
      Forall (fun kv =>
                String.eqb "permissionsByKey" (firstSegment (fst kv)) = false /\
                mem (firstSegment (fst kv)) storeMembers = false)
             (ownEntries obj) ->
      shadowed (stateAfter (writeEntries call s obj l)) = false /\
      forall k, getPermissionsForKey (stateAfter (writeEntries call s obj l)) k
                = getPermissionsForKey s k).
Proof.
  intros Hs Ht. split.
  - intros path v l Hf Hm.
    destruct (@write_keeps s path v l kd tbl Hs Ht Hf Hm) as (S1 & P & _).
    split; [exact S1 | exact P].
  - intros obj l Hf. unfold writeEntries.
    now apply writeEach_keeps with (kd := kd) (tbl := tbl).
Qed.

End Kept.

Lemma writes_keep_resolved_permissions_witness :
  (shadowed (stateAfter (write sampleCall vault "secret:deep" (VNum 1) []))
     = false /\
   forall k,
     getPermissionsForKey
       (stateAfter (write sampleCall vault "secret:deep" (VNum 1) [])) k
     = getPermissionsForKey vault k) /\
  (shadowed
     (stateAfter (writeEntries sampleCall vault
                    (VObj [("a", VNum 1); ("secret", VNum 2)]) [])) = false /\
   forall k,
     getPermissionsForKey
       (stateAfter (writeEntries sampleCall vault
                      (VObj [("a", VNum 1); ("secret", VNum 2)]) [])) k
     = getPermissionsForKey vault k) /\
  getPermissionsForKey vault "secret" = inr [VStr "w"].
Proof.
  pose proof (@writes_keep_resolved_permissions sampleCall vault Data []
                eq_refl eq_refl) as (A & B).
  split; [|split; [|reflexivity]].
  - apply (A "secret:deep" (VNum 1) []); reflexivity.
  - apply (B (VObj [("a", VNum 1); ("secret", VNum 2)]) []).
    repeat constructor.
Defined.

(** ** Declarations on a class *)





(** ** A key that may be written but not read *)

Lemma distinctOwn_assign s a v : distinctOwn s -> distinctOwn (assign s a v).
Proof.
  unfold distinctOwn, assign. intros H.
  destruct (assoc a (own s)) as [[kd x]|].
  - cbn [own]. now apply NoDup_upsert.
  - destruct (chain_descriptor (hidden s) (chain s) a) as [[[] x]|];
      cbn [own]; try now apply NoDup_upsert. exact H.
Qed.

Lemma distinctOwn_after_write s first perms x :
  distinctOwn s -> distinctOwn (setSlot (define s first perms) first x).
Proof.
  intros H. unfold distinctOwn, setSlot, define. cbn [own].
  apply NoDup_upsert, NoDup_upsert. now apply distinctOwn_assign.
Qed.

Section WriteOnly.

Variable call : nat -> store -> error + value.

Lemma allowedToRead_single_det s key la lb b l l' b' :
  split key = [key] ->
  allowedToRead call s key la = (inr b, lb) ->
  allowedToRead call s key l = (inr b', l') ->
  b = b'.
Proof.
  intros Hk Ha Hl.
  rewrite allowedToRead_single, checkSegments_single in Ha, Hl by assumption.
  destruct (shadowed s); [discriminate|].
  destruct (getPermissionsForKey s key); [discriminate|].
  inversion Ha. inversion Hl. congruence.
Qed.

(** X19: a single-segment key that exists on the store with a list
    granting w or rw but neither r nor rw (a write-only key) accepts the
    write of a leaf, which returns the leaf; afterwards the key is still
    write-only: reading it throws PermissionDenied and [entries] leaves it
    out. *)
Theorem write_only_key_is_never_exposed s key v ps kd tbl l :
  distinctOwn s ->
  shadowed s = false ->
  split key = [key] ->
  mem key storeMembers = false ->
  String.eqb "permissionsByKey" key = false ->
  assoc "permissionsByKey" (own s) = Some (kd, VObj tbl) ->
  hasKey s key = true ->
  getPermissionsForKey s key = inr ps ->
  existsb (includes ["w"; "rw"]) ps = true ->
  existsb (includes ["r"; "rw"]) ps = false ->
  isPrimitive v = true ->
  exists s',
    write call s key v l = ((inr v, s'), l) /\
    (forall l2,
        read call s' key l2 =
        (inl (PermissionDenied
                (String.append "Not allowed to read for path " key)), l2)) /\
    (forall l2 res l3,
        entries call s' l2 = (inr (VObj res), l3) -> assoc key res = None).
Proof.
  intros Hn Hs Hk Hm Hpk Ht Hkey Hp Hw Hr Hv.
  assert (Ho : isObject v = false) by (destruct v; try discriminate; reflexivity).
  assert (Hne : negb (Nat.eqb (length ps) 0) = true).
  { destruct ps; [discriminate Hw | reflexivity]. }
  assert (Hg : String.eqb key "getDescriptor" = false).
  { destruct (String.eqb key "getDescriptor") eqn:E; [|reflexivity].
    apply String.eqb_eq in E. subst. discriminate Hm. }
  set (s' := setSlot (define s key ps) key v).
  assert (Hs' : shadowed s' = false) by now apply shadowed_after_write.
  assert (Hp' : getPermissionsForKey s' key = inr ps).
  { unfold s'. rewrite getPermissionsForKey_setSlot by assumption.
    rewrite (@getPermissionsForKey_define s key ps kd tbl key Ht Hpk Hp).
    exact Hp. }
  assert (Hd' : getDescriptor s' key = Some (Accessor, v))
    by apply getDescriptor_setSlot.
  assert (A : forall l2, allowedToRead call s' key l2 = (inr false, l2)).
  { intros l2. rewrite allowedToRead_single, checkSegments_single by assumption.
    rewrite Hs', Hp'. unfold decision, hasKey. now rewrite Hd', Hne, Hr. }
  exists s'. split; [|split].
  - rewrite write_single, writeValue_single_leaf by assumption.
    rewrite checkSegments_single, Hs, Hp. unfold decision.
    now rewrite Hkey, Hne, Hw, Hg.
  - intros l2. rewrite read_single, readSegments_single by assumption.
    rewrite <- allowedToRead_single by assumption. now rewrite A.
  - intros l2 res l3 He.
    destruct (@entries_loop_result call s' l2 res l3 He) as (_ & Hproto & Hin).
    destruct (String.eqb key "__proto__") eqn:Hpr;
      [apply String.eqb_eq in Hpr; rewrite Hpr; exact Hproto|].
    assert (D : assoc key (getAllDescriptors s') = Some (Accessor, v)).
    { rewrite getAllDescriptors_lookup
        by (unfold s'; now apply distinctOwn_after_write).
      unfold getDescriptor in Hd'.
      unfold s', setSlot. cbn [own]. now rewrite assoc_upsert_same. }
    specialize (Hin key _ (@assoc_In _ key _ _ D) Hpr).
    assert (Sv : isStore (descriptorValue (Accessor, v)) = false)
      by (destruct v; try discriminate Hv; reflexivity).
    rewrite Sv in Hin. destruct Hin as (b & la & lb & Hb & Hres).
    rewrite (@allowedToRead_single_det s' key la lb b la la false Hk Hb (A la))
      in Hres.
    exact Hres.
Qed.

End WriteOnly.

Lemma write_only_key_is_never_exposed_witness :
  exists s',
    write sampleCall vault "secret" (VStr "x") [] = ((inr (VStr "x"), s'), []) /\
    (forall l2,
        read sampleCall s' "secret" l2 =
        (inl (PermissionDenied "Not allowed to read for path secret"), l2)) /\
    (forall l2 res l3,
        entries sampleCall s' l2 = (inr (VObj res), l3) ->
        assoc "secret" res = None).
Proof.
  apply (@write_only_key_is_never_exposed sampleCall vault "secret" (VStr "x")
           [VStr "w"] Data [] []); try reflexivity.
  distinct_keys.
Defined.

(** ** The flat variant *)



Lemma assoc_not_mem {A} (k : string) (l : list (string * A)) :
  mem k (map fst l) = false -> assoc k l = None.
Proof.
  induction l as [|[k0 a] r IH]; simpl; [reflexivity|].
  destruct (String.eqb k k0); [discriminate | exact IH].
Qed.

(** X21: in the flat variant a permitted write to a path that has no
    accessor on the prototype (an undeclared key, a member function, any
    path with a colon) stores nothing: it returns undefined and leaves the
    store as it was. *)
Theorem Flat_write_without_accessor_is_noop (s : Flat.store) path v l :
  Flat.allowedToWrite s path l = (inr true, l) ->
  (forall c, Flat.getDescriptor s path <> Some (Accessor, c)) ->
  Flat.write s path v l = (inr (VUndefined, s), l).
Proof.
  intros Ha Hd. unfold Flat.write, bind. rewrite Ha. cbn [negb]. unfold ret.
  assert (E : Flat.setSlot s path v = s).
  { unfold Flat.setSlot. unfold Flat.getDescriptor in Hd.
    destruct (Flat.decorated s) as [acc|]; [|reflexivity].
    destruct (mem path (map fst acc)) eqn:M.
    - now destruct (Hd (hidden_content (Flat.contents s) path)).
    - now rewrite (assoc_not_mem _ _ M). }
  rewrite E.
  destruct (Flat.getDescriptor s path) as [[[] c]|] eqn:D; try reflexivity.
  now destruct (Hd c).
Qed.

Lemma Flat_write_without_accessor_is_noop_witness :
  Flat.write flatVault "other:key" (VNum 1) []
    = (inr (VUndefined, flatVault), []).
Proof.
  apply (@Flat_write_without_accessor_is_noop flatVault "other:key" (VNum 1) []);
    [reflexivity | intros c; discriminate].
Defined.

Lemma fold_upsert_head {A} (g : string -> A) (l : list string) :
  forall k0 d0 t,
    exists d t',
      fold_left (fun ds k => upsert k (g k) ds) l ((k0, d0) :: t)
        = (k0, d) :: t'.
Proof.
  induction l as [|k r IH]; intros k0 d0 t; cbn [fold_left].
  - now exists d0, t.
  - cbn [upsert]. destruct (String.eqb k k0) eqn:E.
    + apply String.eqb_eq in E. subst k. apply IH.
    + apply IH.
Qed.

(** X22: in the flat variant [entries] throws a TypeError on every
    instance whose permission table has no list under the name
    constructor: the first descriptor enumerated is the prototype's
    constructor, for which the table lookup yields the inherited
    [Object] function instead of a list. *)
Theorem Flat_entries_throws (s : Flat.store) l :
  Flat.shadowed s = false ->
  assoc "constructor" (Flat.permissionsByKey s) = None ->
  FlatEnumeration.entries s l = (inl TypeError, l).
Proof.
  intros Hs Ht.
  assert (A : Flat.allowedToRead s "constructor" l = (inl TypeError, l)).
  { unfold Flat.allowedToRead, Flat.checkHasPermissionForKey.
    rewrite Hs, Ht. unfold Flat.hasKey, Flat.getDescriptor.
    destruct (Flat.decorated s) as [acc|]; [|reflexivity].
    destruct (mem "constructor" (map fst acc)); reflexivity. }
  unfold FlatEnumeration.entries, FlatEnumeration.getAllDescriptors.
  destruct (Flat.decorated s) as [acc|].
  - destruct (@fold_upsert_head _ (fun _ => (Accessor, VUndefined))
                (map fst acc) "constructor"
                (Data, VMember "constructor") []) as (d & t' & E).
    rewrite E. cbn [FlatEnumeration.entriesLoop]. unfold bind.
    now rewrite A.
  - cbn [Flat.storeMembers map FlatEnumeration.entriesLoop]. unfold bind.
    now rewrite A.
Qed.

Lemma Flat_entries_throws_witness :
  FlatEnumeration.entries flatVault [] = (inl TypeError, []) /\
  FlatEnumeration.entries Flat.newStore [] = (inl TypeError, []).
Proof.
  split.
  - apply (@Flat_entries_throws flatVault []); reflexivity.
  - apply (@Flat_entries_throws Flat.newStore []); reflexivity.
Defined.
